(** * Remote pinning commands of go-ipfs ([core/commands/pin/remotepin.go])

    A shallow embedding of the command handlers ([Run] functions) of
    [ipfs pin remote ...] and of the helpers they call.  Every handler
    is a computation in a small state-and-error monad [M] over a
    [World] that holds the persisted configuration and the trace of
    calls made to the collaborators (pinning client, swarm, response
    emitter, config repository).  What the collaborators answer is
    given by an [Env] record of functions. *)

From Stdlib Require Import String Ascii List Permutation Sorted Lia.
From stdpp Require Import gmap strings list sorting.

(** ** Go values *)

(** A Go [error] is identified with its message. *)
Definition error := string.

(** A Go [(T, error)] return. *)
Inductive result (A : Type) : Type :=
| Success (a : A)
| Failure (e : error).
Arguments Success {A} a.
Arguments Failure {A} e.

Module cid.
(** [cid.Cid], identified with its [String()] form. *)
Definition Cid := string.
End cid.

Module multiaddr.
(** [multiaddr.Multiaddr], identified with its [String()] form. *)
Definition Multiaddr := string.
Definition String (m : Multiaddr) : string := m.
End multiaddr.

Module peer.
(** [peer.AddrInfo]; only passed from [AddrInfoFromP2pAddr] to
    [Swarm().Connect]. *)
Definition AddrInfo := string.
End peer.

Module config.
(** [config.RemotePinService] *)
Record RemotePinService : Type := {
  Name : string;
  URL : string;
  Key : string
}.

(** The part of [config.Config] the commands touch:
    [cfg.RemotePinServices.Services], a Go map that may be nil. *)
Record Config : Type := {
  Services : option (gmap string RemotePinService)
}.
End config.

Module pinclient.
(** [pinclient.Status] is a Go string type. *)
Definition Status := string.

Definition StatusQueued : Status := "queued".
Definition StatusPinning : Status := "pinning".
Definition StatusPinned : Status := "pinned".
Definition StatusFailed : Status := "failed".

(** The four statuses the remote API names. *)
Definition named : list Status :=
  [StatusQueued; StatusPinning; StatusPinned; StatusFailed].

(** Modelled from the spec: [Status.String] of the pinning client is
    not part of this repository.  The status enum is
    {queued, pinning, pinned, failed, unknown}; [String] gives a
    status one of the four names the remote API knows, and the text
    of [StatusUnknown] ([unknown] below, a constant of the client)
    for every other value. *)
Definition Status_String (unknown : Status) (s : Status) : string :=
  if bool_decide (s ∈ named) then s else unknown.

(** [pinclient.Client], built by [NewClient(url, key)]. *)
Record Client : Type := NewClient {
  client_url : string;
  client_key : string
}.

(** What the handlers read of a [PinStatusGetter]. *)
Record PinStatusGetter : Type := {
  GetRequestId : string;
  GetPinName : string;              (* GetPin().GetName() *)
  GetPinCid : cid.Cid;              (* GetPin().GetCid() *)
  GetDelegates : list multiaddr.Multiaddr;
  GetStatus : Status
}.

Inductive AddOption : Type :=
| WithName (name : string).

Inductive LsOption : Type :=
| FilterName (name : string)
| FilterCIDs (cids : list cid.Cid)
| FilterStatus (statuses : list Status).
End pinclient.

(** ** Requests ([cmds.Request]) *)

(** Values of [req.Options], a [map[string]interface{}]. *)
Inductive OptVal : Type :=
| VString (s : string)
| VStrings (l : list string)
| VBool (b : bool).

Record Request : Type := {
  Arguments : list string;
  Options : gmap string OptVal
}.

Definition pinNameOptionName := "name".
Definition pinCIDsOptionName := "cid".
Definition pinStatusOptionName := "status".
Definition pinServiceNameOptionName := "service".
Definition pinServiceURLOptionName := "url".
Definition pinServiceKeyOptionName := "key".
Definition pinBackgroundOptionName := "background".
Definition pinForceOptionName := "force".

(** [v, found := req.Options[k].(string)] *)
Definition option_string (req : Request) (k : string) : string * bool :=
  match Options req !! k with
  | Some (VString s) => (s, true)
  | _ => ("", false)
  end.

(** [v, found := req.Options[k].([]string)] *)
Definition option_strings (req : Request) (k : string) : list string * bool :=
  match Options req !! k with
  | Some (VStrings l) => (l, true)
  | _ => ([], false)
  end.

(** ** Outputs *)

Record RemotePinOutput : Type := {
  RequestID : string;
  Name : string;
  Delegates : list string;
  Status : string;
  Cid : string
}.

Record PinServiceAndURL : Type := {
  Service : string;
  URL : string
}.

(** A value handed to [res.Emit]. *)
Inductive Emitted : Type :=
| EmitPin (o : RemotePinOutput)
| EmitService (s : PinServiceAndURL).

(** ** Collaborators *)

(** What the external collaborators answer.  Calls that a handler
    repeats (status polls, timer waits, deletions, emissions) get the
    number of the call, so that answers may change over time. *)
Record Env : Type := {
  GetConfigRoot : result string;                     (* cmdenv.GetConfigRoot *)
  fsrepo_Open : string → option error;               (* fsrepo.Open *)
  repo_Config : option error;                        (* failure of repo.Config() *)
  repo_SetConfig : config.Config → option error;     (* failure of repo.SetConfig *)
  map_range : gmap string config.RemotePinService →
              list (string * config.RemotePinService); (* order of [range] over the map *)
  GetApi : option error;                             (* cmdenv.GetApi *)
  ResolvePath : string → result cid.Cid;             (* api.ResolvePath, then rp.Cid() *)
  AddrInfoFromP2pAddr : multiaddr.Multiaddr → result peer.AddrInfo;
  Swarm_Connect : peer.AddrInfo → option error;      (* api.Swarm().Connect *)
  cid_Decode : string → result cid.Cid;              (* cid.Decode *)
  StatusUnknown : pinclient.Status;                  (* pinclient.StatusUnknown *)
  client_Add : pinclient.Client → cid.Cid → list pinclient.AddOption →
               result pinclient.PinStatusGetter;
  client_GetStatusByID : nat → pinclient.Client → string →
                         result pinclient.PinStatusGetter;
  ctx_Done : nat → bool;       (* at the n-th wait, is [ctx.Done()] taken? *)
  client_Ls : pinclient.Client → list pinclient.LsOption →
              list pinclient.PinStatusGetter * option error; (* items of psCh, value of errCh *)
  client_DeleteByID : nat → pinclient.Client → string → option error;
  res_Emit : nat → Emitted → option error
}.

(** ** The world and the monad *)

(** Calls to collaborators, as they are issued. *)
Inductive Event : Type :=
| EvSetConfig (cfg : config.Config)
| EvAdd (c : pinclient.Client) (id : cid.Cid) (opts : list pinclient.AddOption)
| EvConnect (p : peer.AddrInfo)
| EvLog (d : multiaddr.Multiaddr) (e : error)
| EvGetStatus (c : pinclient.Client) (requestId : string)
| EvWait
| EvLs (c : pinclient.Client) (opts : list pinclient.LsOption)
| EvRecvErr (e : option error)     (* the receive [<-errCh] *)
| EvDelete (c : pinclient.Client) (requestId : string)
| EvEmit (v : Emitted).

Record World : Type := {
  w_config : config.Config;      (* the persisted configuration *)
  w_trace : list Event           (* oldest call first *)
}.

(** How a handler ends: it returns a value, returns an error, panics
    (a failed type assertion), or is still running when the fuel of
    the poll loop is used up. *)
Inductive Outcome (A : Type) : Type :=
| Ok (a : A)
| Err (e : error)
| Panic
| OutOfFuel.
Arguments Ok {A} a.
Arguments Err {A} e.
Arguments Panic {A}.
Arguments OutOfFuel {A}.

Definition M (A : Type) : Type := World → Outcome A * World.

Definition ret {A} (a : A) : M A := λ w, (Ok a, w).
Definition fail {A} (e : error) : M A := λ w, (Err e, w).
Definition panic {A} : M A := λ w, (Panic, w).
Definition bind {A B} (m : M A) (k : A → M B) : M B :=
  λ w, match m w with
       | (Ok a, w') => k a w'
       | (Err e, w') => (Err e, w')
       | (Panic, w') => (Panic, w')
       | (OutOfFuel, w') => (OutOfFuel, w')
       end.

Global Instance M_ret : MRet M := @ret.
Global Instance M_bind : MBind M := λ A B k m, bind m k.

(** [v, err := f(); if err != nil { return err }] *)
Definition try {A} (r : result A) : M A :=
  match r with
  | Success a => ret a
  | Failure e => fail e
  end.

(** [if err := f(); err != nil { return err }] *)
Definition check (r : option error) : M unit :=
  match r with
  | None => ret tt
  | Some e => fail e
  end.

Definition record (ev : Event) : M unit :=
  λ w, (Ok tt, {| w_config := w_config w; w_trace := w_trace w ++ [ev] |}).

(** [b := req.Options[k].(bool)]: panics unless the option is a bool. *)
Definition option_bool (req : Request) (k : string) : M bool :=
  match Options req !! k with
  | Some (VBool b) => ret b
  | _ => panic
  end.

(** ** The config repository *)

Definition persisted : M config.Config := λ w, (Ok (w_config w), w).
Definition persist (cfg : config.Config) : M unit :=
  λ w, (Ok tt, {| w_config := cfg; w_trace := w_trace w |}).

(** [cfg, err := repo.Config()]: the persisted configuration.  Every
    handler opens the repository anew, so what it reads is what the
    last successful [SetConfig] wrote. *)
Definition repo_Config_read (E : Env) : M config.Config :=
  check (repo_Config E);; persisted.

(** [repo.SetConfig(cfg)]: on success [cfg] becomes the persisted
    configuration; a failed write leaves it as it was. *)
Definition SetConfig (E : Env) (cfg : config.Config) : M unit :=
  record (EvSetConfig cfg);;
  check (repo_SetConfig E cfg);;
  persist cfg.

(** [cmdenv.GetConfigRoot(env)] followed by [fsrepo.Open(cfgRoot)];
    [defer repo.Close()] has no effect on the model. *)
Definition open_repo (E : Env) : M unit :=
  cfgRoot ← try (GetConfigRoot E);
  check (fsrepo_Open E cfgRoot).

(** ** Service registry commands *)

(** [getRemotePinService] *)
Definition getRemotePinService (E : Env) (name : string) : M (string * string) :=
  open_repo E;;
  cfg ← repo_Config_read E;
  match config.Services cfg with
  | None => fail "service not known"
  | Some services =>
      match services !! name with
      | None => fail "service not known"
      | Some service => mret (config.URL service, config.Key service)
      end
  end.

(** [getRemotePinServiceOrEnv] *)
Definition getRemotePinServiceOrEnv (E : Env) (name : string) : M pinclient.Client :=
  if decide (name = "") then fail "remote pinning service name not specified"
  else
    '(url, key) ← getRemotePinService E name;
    mret (pinclient.NewClient url key).

(** [addRemotePinServiceCmd.Run] *)
Definition addRemotePinServiceCmd (E : Env) (req : Request) : M unit :=
  open_repo E;;
  let '(name, nameFound) := option_string req pinServiceNameOptionName in
  if negb nameFound then fail "service name not given" else
  let '(url, urlFound) := option_string req pinServiceURLOptionName in
  if negb urlFound then fail "service url not given" else
  let '(key, keyFound) := option_string req pinServiceKeyOptionName in
  if negb keyFound then fail "service key not given" else
  cfg ← repo_Config_read E;
  services ←
    match config.Services cfg with
    | Some services =>
        if decide (is_Some (services !! name)) then fail "service already present"
        else mret services
    | None => mret ∅
    end;
  SetConfig E
    {| config.Services :=
         Some (<[name := {| config.Name := name; config.URL := url; config.Key := key |}]>
                 services) |}.

(** [rmRemotePinServiceCmd.Run] *)
Definition rmRemotePinServiceCmd (E : Env) (req : Request) : M unit :=
  open_repo E;;
  match Arguments req with
  | [name] =>
      cfg ← repo_Config_read E;
      SetConfig E {| config.Services := delete name <$> config.Services cfg |}
  | _ => fail "expecting one argument: name"
  end.

(** [sortedServiceAndURL.Less], on the elements compared: Go's [<] on
    strings is the lexicographic order of their bytes. *)
Definition Less (a b : PinServiceAndURL) : bool :=
  String.ltb (Service a) (Service b).

(** [sort.Sort] is Go's library.  It reorders the slice with [Swap]
    until no element is [Less] than one before it; it is modelled as an
    insertion sort that asks [Less] only ([sort_Sort_unique] below: for
    distinct names every such reordering gives the same list). *)
Fixpoint sort_insert (x : PinServiceAndURL) (l : list PinServiceAndURL)
  : list PinServiceAndURL :=
  match l with
  | [] => [x]
  | y :: l' => if Less x y then x :: y :: l' else y :: sort_insert x l'
  end.

Definition sort_Sort (l : list PinServiceAndURL) : list PinServiceAndURL :=
  foldr sort_insert [] l.

(** [for _, r := range result { if err := res.Emit(r); err != nil { return err } }],
    the [n]-th emission of the handler first. *)
Fixpoint emit_all (E : Env) (n : nat) (l : list Emitted) : M unit :=
  match l with
  | [] => mret tt
  | v :: l' =>
      record (EvEmit v);;
      check (res_Emit E n v);;
      emit_all E (S n) l'
  end.

(** [lsRemotePinServiceCmd.Run] *)
Definition lsRemotePinServiceCmd (E : Env) (req : Request) : M unit :=
  open_repo E;;
  cfg ← repo_Config_read E;
  match config.Services cfg with
  | None => mret tt
  | Some services =>
      let result :=
        (λ '(svcName, svcConfig),
           {| Service := svcName; URL := config.URL svcConfig |})
          <$> map_range E services in
      emit_all E 0 (EmitService <$> sort_Sort result)
  end.

(** ** Remote pin commands *)

Definition out_of_fuel {A} : M A := λ w, (OutOfFuel, w).

(** [multiaddrsToStrings] *)
Definition multiaddrsToStrings (m : list multiaddr.Multiaddr) : list string :=
  multiaddr.String <$> m.

(** The [&RemotePinOutput{...}] built from a pin status, in
    [addRemotePinCmd] and [listRemotePinCmd] alike. *)
Definition output (E : Env) (ps : pinclient.PinStatusGetter) : RemotePinOutput :=
  {| RequestID := pinclient.GetRequestId ps;
     Name := pinclient.GetPinName ps;
     Delegates := multiaddrsToStrings (pinclient.GetDelegates ps);
     Status := pinclient.Status_String (StatusUnknown E) (pinclient.GetStatus ps);
     Cid := pinclient.GetPinCid ps |}.

(** The loop over [ps.GetDelegates()] of [addRemotePinCmd]. *)
Fixpoint connect_delegates (E : Env) (ds : list multiaddr.Multiaddr) : M unit :=
  match ds with
  | [] => mret tt
  | d :: ds' =>
      p ← try (AddrInfoFromP2pAddr E d);
      record (EvConnect p);;
      match Swarm_Connect E p with
      | Some err => record (EvLog d err)
      | None => mret tt
      end;;
      connect_delegates E ds'
  end.

(** The [for { ... }] loop of [addRemotePinCmd]; [n] counts the polls
    made so far and [fuel] bounds the polls still allowed. *)
Fixpoint poll (E : Env) (c : pinclient.Client) (fuel n : nat)
    (ps : pinclient.PinStatusGetter) : M pinclient.PinStatusGetter :=
  match fuel with
  | 0 => out_of_fuel
  | S fuel' =>
      record (EvGetStatus c (pinclient.GetRequestId ps));;
      match client_GetStatusByID E n c (pinclient.GetRequestId ps) with
      | Failure err => fail ("failed to query pin (" +:+ err +:+ ")")
      | Success ps =>
          let s := pinclient.GetStatus ps in
          if decide (s = pinclient.StatusPinned) then mret ps
          else if decide (s = pinclient.StatusFailed) then fail "failed to pin"
          else
            record EvWait;;
            if ctx_Done E n then fail "waiting for pin interrupted"
            else poll E c fuel' (S n) ps
      end
  end.

(** The end of [addRemotePinCmd.Run], from [if !req.Options[...].(bool)]
    on: the wait for a terminal status unless the pin is added in the
    background, then the emission of the last pin status held. *)
Definition wait_and_emit (E : Env) (c : pinclient.Client) (fuel : nat) (req : Request)
    (ps : pinclient.PinStatusGetter) : M unit :=
  background ← option_bool req pinBackgroundOptionName;
  ps ← (if negb background then poll E c fuel 0 ps else mret ps);
  emit_all E 0 [EmitPin (output E ps)].

(** [addRemotePinCmd.Run] *)
Definition addRemotePinCmd (E : Env) (fuel : nat) (req : Request) : M unit :=
  let opts :=
    match option_string req pinNameOptionName with
    | (name, true) => [pinclient.WithName name]
    | _ => []
    end in
  check (GetApi E);;
  match Arguments req with
  | [arg] =>
      rp ← try (ResolvePath E arg);
      let service := (option_string req pinServiceNameOptionName).1 in
      c ← getRemotePinServiceOrEnv E service;
      record (EvAdd c rp opts);;
      ps ← try (client_Add E c rp opts);
      connect_delegates E (pinclient.GetDelegates ps);;
      wait_and_emit E c fuel req ps
  | _ => fail "expecting one CID argument"
  end.

(** The loop over [cidsRaw] of [lsRemote]. *)
Fixpoint decode_cids (E : Env) (cidsRaw : list string) : M (list cid.Cid) :=
  match cidsRaw with
  | [] => mret []
  | rawCID :: rest =>
      match cid_Decode E rawCID with
      | Failure err =>
          fail ("CID " +:+ rawCID +:+ " cannot be parsed (" +:+ err +:+ ")")
      | Success parsedCID =>
          parsedCIDs ← decode_cids E rest;
          mret (parsedCID :: parsedCIDs)
      end
  end.

(** The loop over [statusRaw] of [lsRemote]. *)
Fixpoint parse_statuses (E : Env) (statusRaw : list string) : M (list pinclient.Status) :=
  match statusRaw with
  | [] => mret []
  | rawStatus :: rest =>
      let s : pinclient.Status := rawStatus in
      if decide (pinclient.Status_String (StatusUnknown E) s = StatusUnknown E)
      then fail ("status " +:+ rawStatus +:+ " is not valid")
      else
        parsedStatuses ← parse_statuses E rest;
        mret (s :: parsedStatuses)
  end.

(** [if name, nameFound := ...; nameFound { opts = append(opts, FilterName(name)) }] *)
Definition name_filter (req : Request) : list pinclient.LsOption :=
  match option_string req pinNameOptionName with
  | (name, true) => [pinclient.FilterName name]
  | _ => []
  end.

(** [if cidsRaw, cidsFound := ...; cidsFound { ... }] *)
Definition cid_filter (E : Env) (req : Request) (opts : list pinclient.LsOption)
  : M (list pinclient.LsOption) :=
  match option_strings req pinCIDsOptionName with
  | (cidsRaw, true) =>
      parsedCIDs ← decode_cids E cidsRaw;
      mret (opts ++ [pinclient.FilterCIDs parsedCIDs])
  | _ => mret opts
  end.

(** [if statusRaw, statusFound := ...; statusFound { ... }] *)
Definition status_filter (E : Env) (req : Request) (opts : list pinclient.LsOption)
  : M (list pinclient.LsOption) :=
  match option_strings req pinStatusOptionName with
  | (statusRaw, true) =>
      parsedStatuses ← parse_statuses E statusRaw;
      mret (opts ++ [pinclient.FilterStatus parsedStatuses])
  | _ => mret opts
  end.

(** The options [lsRemote] builds before it calls the client. *)
Definition ls_options (E : Env) (req : Request) : M (list pinclient.LsOption) :=
  opts ← cid_filter E req (name_filter req);
  status_filter E req opts.

(** [lsRemote]: the items that will come on [psCh] and the value that
    will come on [errCh]. *)
Definition lsRemote (E : Env) (req : Request) (c : pinclient.Client)
  : M (list pinclient.PinStatusGetter * option error) :=
  opts ← ls_options E req;
  record (EvLs c opts);;
  mret (client_Ls E c opts).

(** [listRemotePinCmd.Run] *)
Definition listRemotePinCmd (E : Env) (req : Request) : M unit :=
  let service := (option_string req pinServiceNameOptionName).1 in
  c ← getRemotePinServiceOrEnv E service;
  '(psCh, errCh) ← lsRemote E req c;
  emit_all E 0 ((λ ps, EmitPin (output E ps)) <$> psCh);;
  record (EvRecvErr errCh);;
  check errCh.

(** The loop over [rmIDs] of [rmRemotePinCmd]. *)
Fixpoint delete_all (E : Env) (c : pinclient.Client) (n : nat) (rmIDs : list string)
  : M unit :=
  match rmIDs with
  | [] => mret tt
  | rmID :: rest =>
      record (EvDelete c rmID);;
      match client_DeleteByID E n c rmID with
      | Some err =>
          fail ("removing pin with request ID " +:+ rmID +:+ " (" +:+ err +:+ ")")
      | None => delete_all E c (S n) rest
      end
  end.

(** [rmRemotePinCmd.Run] *)
Definition rmRemotePinCmd (E : Env) (req : Request) : M unit :=
  let service := (option_string req pinServiceNameOptionName).1 in
  c ← getRemotePinServiceOrEnv E service;
  rmIDs ←
    match Arguments req with
    | [] =>
        '(psCh, errCh) ← lsRemote E req c;
        let rmIDs := pinclient.GetRequestId <$> psCh in
        record (EvRecvErr errCh);;
        match errCh with
        | Some err => fail ("listing remote pin IDs (" +:+ err +:+ ")")
        | None =>
            if bool_decide (0 < length rmIDs) then
              force ← option_bool req pinForceOptionName;
              if negb force then fail "multiple pins may be removed, use --force"
              else mret rmIDs
            else mret rmIDs
        end
    | arg0 :: _ => mret [arg0]
    end;
  delete_all E c 0 rmIDs.

(** ** Notions used in the statements *)

(** Services ordered by name, loosely and strictly. *)
Definition name_le (a b : PinServiceAndURL) : Prop := String.le (Service a) (Service b).
Definition name_lt (a b : PinServiceAndURL) : Prop := Less a b = true.

(** The registered services of a configuration: a nil map has none. *)
Definition registered (cfg : config.Config) : gmap string config.RemotePinService :=
  default ∅ (config.Services cfg).

(** The listing of a registry whose credentials have been dropped:
    the names with their URLs, in the order of the names. *)
Definition listing (urls : gmap string string) : list PinServiceAndURL :=
  sort_Sort ((λ '(name, url), {| Service := name; URL := url |}) <$> map_to_list urls).

(** The world after more calls have been issued. *)
Definition after (w : World) (evs : list Event) : World :=
  {| w_config := w_config w; w_trace := w_trace w ++ evs |}.

(** The request ids of the deletions in a trace, oldest first. *)
Definition deletions (tr : list Event) : list string :=
  omap (λ ev, match ev with EvDelete _ requestId => Some requestId | _ => None end) tr.

(** The request ids of the status polls in a trace, oldest first. *)
Definition polls (tr : list Event) : list string :=
  omap (λ ev, match ev with EvGetStatus _ requestId => Some requestId | _ => None end) tr.

(** The values emitted in a trace, oldest first. *)
Definition emissions (tr : list Event) : list Emitted :=
  omap (λ ev, match ev with EvEmit v => Some v | _ => None end) tr.

(** ** A sample environment *)

(** Every collaborator succeeds.  The remote service answers the
    submission with [submitted], the [n]-th status poll with the
    status [status_at n], and a listing with [pins] and then [lserr];
    [cid.Decode] refuses strings shorter than two bytes, and
    [AddrInfoFromP2pAddr] addresses without a [/p2p/] part (here: the
    ones that do not start with [/p2p/]); [Swarm().Connect] reaches
    no one. *)
Definition sample_pin (requestId : string) (s : pinclient.Status)
    (ds : list multiaddr.Multiaddr) : pinclient.PinStatusGetter :=
  {| pinclient.GetRequestId := requestId;
     pinclient.GetPinName := "";
     pinclient.GetPinCid := "QmSample";
     pinclient.GetDelegates := ds;
     pinclient.GetStatus := s |}.

Definition sample_env (ds : list multiaddr.Multiaddr) (status_at : nat → pinclient.Status)
    (pins : list pinclient.PinStatusGetter) (lserr : option error) : Env :=
  {| GetConfigRoot := Success "/repo";
     fsrepo_Open := λ _, None;
     repo_Config := None;
     repo_SetConfig := λ _, None;
     map_range := map_to_list;
     GetApi := None;
     ResolvePath := λ p, Success p;
     AddrInfoFromP2pAddr :=
       λ d, if String.prefix "/p2p/" d then Success d
            else Failure "invalid p2p multiaddr";
     Swarm_Connect := λ _, Some "dial backoff";
     cid_Decode :=
       λ s, if String.length s <? 2 then Failure "cid too short" else Success s;
     StatusUnknown := "";
     client_Add := λ c id opts, Success (sample_pin "req-1" pinclient.StatusQueued ds);
     client_GetStatusByID := λ n c requestId, Success (sample_pin requestId (status_at n) ds);
     ctx_Done := λ _, false;
     client_Ls := λ c opts, (pins, lserr);
     client_DeleteByID := λ _ _ _, None;
     res_Emit := λ _ _, None |}.

Definition plain_env : Env := sample_env [] (λ _, pinclient.StatusPinned) [] None.

Definition service (name url key : string) : config.RemotePinService :=
  {| config.Name := name; config.URL := url; config.Key := key |}.

Definition world_of (services : option (gmap string config.RemotePinService)) : World :=
  {| w_config := {| config.Services := services |}; w_trace := [] |}.


(** A request with positional arguments only, and one with options only. *)
Definition request_of_arguments (args : list string) : Request :=
  {| Arguments := args; Options := ∅ |}.

Definition request_of_options (opts : list (string * OptVal)) : Request :=
  {| Arguments := []; Options := list_to_map opts |}.

(** The registry after ["b"], ["a"] and ["c"] were added, in this order. *)
Definition world_bac : World :=
  world_of (Some (<["c" := service "c" "https://c.example" "kc"]>
                 (<["a" := service "a" "https://a.example" "ka"]>
                 (<["b" := service "b" "https://b.example" "kb"]> ∅)))).


(** The remote service holds one pin, [req-1]. *)
Definition one_pin_env : Env :=
  sample_env [] (λ _, pinclient.StatusPinned)
    [sample_pin "req-1" pinclient.StatusPinned []] None.

(** The client of service ["a"] of [world_bac]. *)
Definition client_a : pinclient.Client := pinclient.NewClient "https://a.example" "ka".


(** An environment whose connection attempts answer [connect] and
    whose other collaborators answer as those of [E]. *)
Definition with_Connect (E : Env) (connect : peer.AddrInfo → option error) : Env :=
  {| GetConfigRoot := GetConfigRoot E;
     fsrepo_Open := fsrepo_Open E;
     repo_Config := repo_Config E;
     repo_SetConfig := repo_SetConfig E;
     map_range := map_range E;
     GetApi := GetApi E;
     ResolvePath := ResolvePath E;
     AddrInfoFromP2pAddr := AddrInfoFromP2pAddr E;
     Swarm_Connect := connect;
     cid_Decode := cid_Decode E;
     StatusUnknown := StatusUnknown E;
     client_Add := client_Add E;
     client_GetStatusByID := client_GetStatusByID E;
     ctx_Done := ctx_Done E;
     client_Ls := client_Ls E;
     client_DeleteByID := client_DeleteByID E;
     res_Emit := res_Emit E |}.

(** Two worlds are similar when they persist the same configuration
    and the same values were emitted in them; two runs end alike when
    their outcomes are the same and their worlds similar (the other
    calls they issued may differ). *)
Definition similar (w1 w2 : World) : Prop :=
  w_config w1 = w_config w2 ∧ emissions (w_trace w1) = emissions (w_trace w2).

Definition alike {A} (r1 r2 : Outcome A * World) : Prop :=
  r1.1 = r2.1 ∧ similar r1.2 r2.2.

(** The remote service suggests a delegate address without a peer id. *)
Definition bad_delegate_env : Env :=
  sample_env ["/ip4/198.51.100.7/tcp/4001"] (λ _, pinclient.StatusPinned) [] None.

(** The remote service reports queued, pinning, and from then on
    [final]. *)
Definition progress_env (final : pinclient.Status) : Env :=
  sample_env ["/p2p/QmDelegate"]
    (λ n, match n with
          | 0 => pinclient.StatusQueued
          | 1 => pinclient.StatusPinning
          | _ => final
          end) [] None.

Definition add_request (background : bool) : Request :=
  {| Arguments := ["/ipfs/QmSample"];
     Options := list_to_map [("service", VString "a"); ("background", VBool background)] |}.


(** The calls of the wait loop when it leaves at its [k]+1-st poll:
    [k] polls each followed by a timer wait, and a last poll. *)
Definition poll_rounds (c : pinclient.Client) (requestId : string) (k : nat) : list Event :=
  concat (replicate k [EvGetStatus c requestId; EvWait]) ++ [EvGetStatus c requestId].

(** A status on which the wait loop goes on waiting. *)
Definition waiting (s : pinclient.Status) : Prop :=
  s ≠ pinclient.StatusPinned ∧ s ≠ pinclient.StatusFailed.


(** The test [lsRemote] makes on a raw status: it refuses the ones
    whose [String()] is the text of [StatusUnknown]. *)
Definition refused (E : Env) (rawStatus : string) : Prop :=
  pinclient.Status_String (StatusUnknown E) rawStatus = StatusUnknown E.

(** A raw CID that [cid.Decode] accepts. *)
Definition decodes (E : Env) (rawCID : string) : Prop :=
  ∃ parsedCID, cid_Decode E rawCID = Success parsedCID.


(** A listing that yields no pin, and then the error [lserr]. *)
Definition empty_listing_env (lserr : option error) : Env :=
  sample_env [] (λ _, pinclient.StatusPinned) [] lserr.

(** What a synchronous run emits: nothing, or one record whose status
    is pinned. *)
Definition only_pinned (E : Env) (o : Outcome unit) (new : list Emitted) : Prop :=
  (∀ v, v ∈ new →
        ∃ ps', v = EmitPin (output E ps')
               ∧ pinclient.GetStatus ps' = pinclient.StatusPinned
               ∧ Status (output E ps') = "pinned")
  ∧ (o = Ok tt → length new = 1).


(** ** [sortedServiceAndURL], by index *)

(** [s[i]] for a Go [int] index: [None] stands for the panic on an
    index out of range. *)
Definition at_index {A} (s : list A) (i : Z) : option A :=
  if decide (0 ≤ i)%Z then s !! Z.to_nat i else None.

(** [sortedServiceAndURL.Len] *)
Definition Len (s : list PinServiceAndURL) : Z := Z.of_nat (length s).

(** [sortedServiceAndURL.Swap]: [s[i], s[j] = s[j], s[i]] reads both
    elements, then assigns [s[i]] and [s[j]]. *)
Definition Swap (s : list PinServiceAndURL) (i j : Z) : option (list PinServiceAndURL) :=
  a ← at_index s i;
  b ← at_index s j;
  Some (<[Z.to_nat j := a]> (<[Z.to_nat i := b]> s)).

(** [sortedServiceAndURL.Less], as the method is written: on indices. *)
Definition Less_at (s : list PinServiceAndURL) (i j : Z) : option bool :=
  a ← at_index s i;
  b ← at_index s j;
  Some (Less a b).

(** ** Notions used for the further properties *)

(** The configurations written in a trace, oldest first. *)
Definition writes (tr : list Event) : list config.Config :=
  omap (λ ev, match ev with EvSetConfig cfg => Some cfg | _ => None end) tr.

(** A run that leaves the configuration alone: it persists what was
    persisted and asks for no write. *)
Definition reads_only {A} (m : M A) : Prop :=
  ∀ w, w_config (m w).2 = w_config w ∧ writes (w_trace (m w).2) = writes (w_trace w).

(** A [service add] request carrying the triple as the string options
    the handler reads. *)
Definition service_add_request (name url key : string) : Request :=
  request_of_options [("service", VString name); ("url", VString url); ("key", VString key)].


(** The remote service lists the pins [r1], [r2] and [r3]; deleting
    [r2] fails. *)
Definition three_pins : list pinclient.PinStatusGetter :=
  [sample_pin "r1" pinclient.StatusPinned [];
   sample_pin "r2" pinclient.StatusQueued [];
   sample_pin "r3" pinclient.StatusFailed []].

Definition three_pins_env : Env :=
  sample_env [] (λ _, pinclient.StatusPinned) three_pins None.

Definition failing_delete_env : Env :=
  {| GetConfigRoot := GetConfigRoot three_pins_env;
     fsrepo_Open := fsrepo_Open three_pins_env;
     repo_Config := repo_Config three_pins_env;
     repo_SetConfig := repo_SetConfig three_pins_env;
     map_range := map_range three_pins_env;
     GetApi := GetApi three_pins_env;
     ResolvePath := ResolvePath three_pins_env;
     AddrInfoFromP2pAddr := AddrInfoFromP2pAddr three_pins_env;
     Swarm_Connect := Swarm_Connect three_pins_env;
     cid_Decode := cid_Decode three_pins_env;
     StatusUnknown := StatusUnknown three_pins_env;
     client_Add := client_Add three_pins_env;
     client_GetStatusByID := client_GetStatusByID three_pins_env;
     ctx_Done := ctx_Done three_pins_env;
     client_Ls := client_Ls three_pins_env;
     client_DeleteByID :=
       λ _ _ requestId, if decide (requestId = "r2") then Some "pin not found" else None;
     res_Emit := res_Emit three_pins_env |}.

Definition forced_rm_request : Request :=
  request_of_options [("service", VString "a"); ("force", VBool true)].


(** The options [addRemotePinCmd] submits the pin with. *)
Definition name_option (req : Request) : list pinclient.AddOption :=
  match option_string req pinNameOptionName with
  | (name, true) => [pinclient.WithName name]
  | _ => []
  end.

(** A delegate address that converts to peer address information. *)
Definition converts (E : Env) (d : multiaddr.Multiaddr) : Prop :=
  ∃ p, AddrInfoFromP2pAddr E d = Success p.

(** The calls made for delegates that all convert: for each, in
    order, one connection attempt, and a log entry when it fails. *)
Fixpoint delegate_calls (E : Env) (ds : list multiaddr.Multiaddr) : list Event :=
  match ds with
  | [] => []
  | d :: ds' =>
      match AddrInfoFromP2pAddr E d with
      | Success p =>
          EvConnect p
          :: match Swarm_Connect E p with
             | Some err => [EvLog d err]
             | None => []
             end ++ delegate_calls E ds'
      | Failure _ => []
      end
  end.

(** [k] rounds of the wait loop: a poll and a timer wait each. *)
Definition wait_rounds (c : pinclient.Client) (requestId : string) (k : nat) : list Event :=
  concat (replicate k [EvGetStatus c requestId; EvWait]).

(** The remote service never gets past "pinning". *)
Definition stuck_env : Env :=
  sample_env ["/p2p/QmDelegate"] (λ _, pinclient.StatusPinning) [] None.

(** As [E], with a context that is done at wait [k] and with status
    polls that fail from poll [q] on. *)
Definition with_ctx_and_polls (E : Env) (k q : nat) : Env :=
  {| GetConfigRoot := GetConfigRoot E;
     fsrepo_Open := fsrepo_Open E;
     repo_Config := repo_Config E;
     repo_SetConfig := repo_SetConfig E;
     map_range := map_range E;
     GetApi := GetApi E;
     ResolvePath := ResolvePath E;
     AddrInfoFromP2pAddr := AddrInfoFromP2pAddr E;
     Swarm_Connect := Swarm_Connect E;
     cid_Decode := cid_Decode E;
     StatusUnknown := StatusUnknown E;
     client_Add := client_Add E;
     client_GetStatusByID :=
       λ n c requestId, if decide (q ≤ n) then Failure "connection refused"
                        else client_GetStatusByID E n c requestId;
     ctx_Done := λ n, bool_decide (k ≤ n);
     client_Ls := client_Ls E;
     client_DeleteByID := client_DeleteByID E;
     res_Emit := res_Emit E |}.


(** The status filter of a request, as it was given. *)
Definition status_part (req : Request) : list pinclient.LsOption :=
  match option_strings req pinStatusOptionName with
  | (statusRaw, true) => [pinclient.FilterStatus statusRaw]
  | _ => []
  end.

(** The record [ls] emits for a pin. *)
Definition listed (E : Env) (ps : pinclient.PinStatusGetter) : Emitted :=
  EmitPin (output E ps).

(** As [three_pins_env], with an emitter that fails from the second
    emission on, and a listing that ends with an error. *)
Definition broken_emitter_env : Env :=
  {| GetConfigRoot := GetConfigRoot three_pins_env;
     fsrepo_Open := fsrepo_Open three_pins_env;
     repo_Config := repo_Config three_pins_env;
     repo_SetConfig := repo_SetConfig three_pins_env;
     map_range := map_range three_pins_env;
     GetApi := GetApi three_pins_env;
     ResolvePath := ResolvePath three_pins_env;
     AddrInfoFromP2pAddr := AddrInfoFromP2pAddr three_pins_env;
     Swarm_Connect := Swarm_Connect three_pins_env;
     cid_Decode := cid_Decode three_pins_env;
     StatusUnknown := StatusUnknown three_pins_env;
     client_Add := client_Add three_pins_env;
     client_GetStatusByID := client_GetStatusByID three_pins_env;
     ctx_Done := ctx_Done three_pins_env;
     client_Ls := λ _ _, (three_pins, Some "timeout");
     client_DeleteByID := client_DeleteByID three_pins_env;
     res_Emit := λ n _, if decide (1 ≤ n) then Some "broken pipe" else None |}.

(** The remote service suggests a delegate that cannot be reached and
    then one whose address has no peer id. *)
Definition mixed_delegates_env : Env :=
  sample_env ["/p2p/QmDelegate"; "/ip4/198.51.100.7/tcp/4001"]
    (λ _, pinclient.StatusPinned) [] None.

(** [rm r1] with the status filter [unknown]. *)
Definition rm_unknown_request : Request :=
  {| Arguments := ["r1"];
     Options := list_to_map [("service", VString "a"); ("status", VStrings ["unknown"])] |}.

(** * Properties *)

(** ** Running a computation *)

Lemma bind_Ok {A B} (m : M A) (k : A → M B) w a w' :
  m w = (Ok a, w') → (m ≫= k) w = k a w'.
Proof. unfold mbind, M_bind, bind. by intros ->. Qed.

Lemma bind_run {A B} (m : M A) (k : A → M B) w :
  (m ≫= k) w = match m w with
               | (Ok a, w') => k a w'
               | (Err e, w') => (Err e, w')
               | (Panic, w') => (Panic, w')
               | (OutOfFuel, w') => (OutOfFuel, w')
               end.
Proof. done. Qed.

Lemma bind_Err {A B} (m : M A) (k : A → M B) w e w' :
  m w = (Err e, w') → (m ≫= k) w = (Err e, w').
Proof. unfold mbind, M_bind, bind. by intros ->. Qed.

(** Unfold the operations of the monad and compute. *)
Ltac run :=
  repeat progress
    (unfold mbind, M_bind, bind, mret, M_ret, ret, fail, panic, out_of_fuel,
       try, check, record, persisted, persist; simpl).

Lemma open_repo_Ok E root w :
  GetConfigRoot E = Success root → fsrepo_Open E root = None →
  open_repo E w = (Ok tt, w).
Proof. intros Hroot Hopen. unfold open_repo. run. rewrite Hroot. by rewrite Hopen. Qed.

Lemma repo_Config_read_Ok E w :
  repo_Config E = None → repo_Config_read E w = (Ok (w_config w), w).
Proof. intros H. unfold repo_Config_read. run. by rewrite H. Qed.

(** ** The order of service names *)

Lemma string_compare_refl (s : string) : (s ?= s)%string = Eq.
Proof.
  induction s as [|a s IH]; simpl; [done|].
  unfold Ascii.compare. by rewrite N.compare_refl.
Qed.

Lemma string_ltb_le (s1 s2 : string) :
  String.ltb s1 s2 = true ↔ String.le s1 s2 ∧ s1 ≠ s2.
Proof.
  unfold String.le, String.ltb, String.leb. split.
  - destruct (s1 ?= s2)%string eqn:Hc; try done. intros _. split; [done|].
    intros ->. by rewrite string_compare_refl in Hc.
  - intros [Hle Hne]. destruct (s1 ?= s2)%string eqn:Hc; try done.
    by apply String.compare_eq_iff in Hc.
Qed.

Lemma string_ltb_irrefl (s : string) : String.ltb s s = false.
Proof. unfold String.ltb. by rewrite string_compare_refl. Qed.

Lemma string_ltb_trans (s1 s2 s3 : string) :
  String.ltb s1 s2 = true → String.ltb s2 s3 = true → String.ltb s1 s3 = true.
Proof.
  rewrite !string_ltb_le. intros [H12 Hne12] [H23 Hne23]. split.
  - by etrans.
  - intros ->. apply Hne12. by apply (anti_symm String.le).
Qed.

Lemma string_ltb_false_le (s1 s2 : string) :
  String.ltb s1 s2 = false → String.le s2 s1.
Proof.
  intros Hlt. destruct (total String.le s2 s1) as [|Hle]; [done|].
  destruct (decide (s1 = s2)) as [->|Hne]; [done|].
  assert (String.ltb s1 s2 = true) by (by apply string_ltb_le). congruence.
Qed.

Global Instance name_le_trans : Transitive name_le.
Proof. intros a b c. unfold name_le. apply transitivity. Qed.

Global Instance name_lt_trans : Transitive name_lt.
Proof. intros a b c. unfold name_lt, Less. apply string_ltb_trans. Qed.


(** ** [sort.Sort] sorts *)








(** ** Emitting *)

Lemma emit_all_Ok E n l w :
  (∀ k v, res_Emit E k v = None) →
  emit_all E n l w = (Ok tt, after w (EvEmit <$> l)).
Proof.
  intros Hemit. revert n w. induction l as [|v l IH]; intros n w.
  - unfold after. run. rewrite app_nil_r. by destruct w.
  - simpl. run. rewrite Hemit. rewrite IH. unfold after. simpl.
    by rewrite <-app_assoc.
Qed.

(** ** C7: [service ls] *)





(** Registering ["b"], then ["a"], then ["c"] lists [a, b, c]; upper
    case sorts before lower case. *)
Example service_ls_b_a_c :
  emissions (w_trace (lsRemotePinServiceCmd plain_env (request_of_arguments []) world_bac).2)
  = [EmitService {| Service := "a"; URL := "https://a.example" |};
     EmitService {| Service := "b"; URL := "https://b.example" |};
     EmitService {| Service := "c"; URL := "https://c.example" |}]
  ∧ Less {| Service := "B"; URL := "" |} {| Service := "a"; URL := "" |} = true.
Proof. split; vm_compute; reflexivity. Qed.

(** ** C1: [service add], then resolving the service *)

Lemma SetConfig_Ok E cfg w :
  repo_SetConfig E cfg = None →
  SetConfig E cfg w = (Ok tt, {| w_config := cfg; w_trace := w_trace w ++ [EvSetConfig cfg] |}).
Proof. intros H. unfold SetConfig. run. by rewrite H. Qed.

Lemma getRemotePinService_Ok E root name svc w :
  GetConfigRoot E = Success root →
  fsrepo_Open E root = None →
  repo_Config E = None →
  registered (w_config w) !! name = Some svc →
  getRemotePinService E name w = (Ok (config.URL svc, config.Key svc), w).
Proof.
  intros Hroot Hopen Hcfg Hsvc. unfold getRemotePinService.
  rewrite (bind_Ok _ _ _ _ _ (open_repo_Ok _ _ _ Hroot Hopen)).
  rewrite (bind_Ok _ _ _ _ _ (repo_Config_read_Ok _ _ Hcfg)).
  unfold registered in Hsvc.
  destruct (config.Services (w_config w)) as [m|]; simpl in Hsvc; [|done].
  by rewrite Hsvc.
Qed.

(** The registry itself keeps what it is given: when the name, the URL
    and the key reach the handler as the string options it reads, and
    the name is free, the service resolves to that URL and key. *)
Lemma service_add_then_resolve (E : Env) (req : Request) (w : World)
    (root name url key : string) :
  GetConfigRoot E = Success root →
  fsrepo_Open E root = None →
  repo_Config E = None →
  (∀ cfg, repo_SetConfig E cfg = None) →
  Options req !! pinServiceNameOptionName = Some (VString name) →
  Options req !! pinServiceURLOptionName = Some (VString url) →
  Options req !! pinServiceKeyOptionName = Some (VString key) →
  registered (w_config w) !! name = None →
  ∃ w', addRemotePinServiceCmd E req w = (Ok tt, w')
        ∧ getRemotePinService E name w' = (Ok (url, key), w').
Proof.
  intros Hroot Hopen Hcfg Hset Hname Hurl Hkey Hfree.
  assert (Hadd : ∃ m, addRemotePinServiceCmd E req w =
            (Ok tt, {| w_config := {| config.Services :=
                         Some (<[name := service name url key]> m) |};
                       w_trace := w_trace w ++ [EvSetConfig {| config.Services :=
                         Some (<[name := service name url key]> m) |}] |})).
  { unfold addRemotePinServiceCmd.
    rewrite (bind_Ok _ _ _ _ _ (open_repo_Ok _ _ _ Hroot Hopen)).
    unfold option_string. rewrite Hname, Hurl, Hkey. simpl.
    rewrite (bind_Ok _ _ _ _ _ (repo_Config_read_Ok _ _ Hcfg)).
    unfold registered in Hfree.
    destruct (config.Services (w_config w)) as [m|] eqn:Hm; simpl in Hfree.
    - exists m. destruct (decide (is_Some (m !! name))) as [[v Hv]|_]; [congruence|].
      erewrite bind_Ok; [|reflexivity]. by apply SetConfig_Ok.
    - exists ∅. erewrite bind_Ok; [|reflexivity]. by apply SetConfig_Ok. }
  destruct Hadd as [m Hadd]. eexists. split; [exact Hadd|].
  apply (getRemotePinService_Ok E root name (service name url key)); try done.
  unfold registered. simpl. apply lookup_insert_eq.
Qed.

(** A request that does not carry the name as a string option
    registers nothing, whatever its positional arguments are. *)
Lemma service_add_needs_name_option (E : Env) (req : Request) (w : World) :
  (option_string req pinServiceNameOptionName).2 = false →
  ∃ e, addRemotePinServiceCmd E req w = (Err e, w).
Proof.
  intros Hname. unfold addRemotePinServiceCmd, open_repo.
  destruct (option_string req pinServiceNameOptionName) as [name found].
  simpl in Hname. subst found. run.
  destruct (GetConfigRoot E) as [root|e]; run; [|by eexists].
  destruct (fsrepo_Open E root) as [e|]; run; by eexists.
Qed.

(** C1.  [service add] declares the name, the URL and the key as its
    three positional arguments, yet looks for them among the options.
    Called with the three arguments it returns "service name not
    given" and writes nothing, so that the name does not resolve. *)
Theorem service_add_by_arguments_registers_nothing :
  let req := request_of_arguments ["pinata"; "https://api.pinata.cloud/psa"; "secret"] in
  let w := world_of None in
  addRemotePinServiceCmd plain_env req w = (Err "service name not given", w)
  ∧ getRemotePinService plain_env "pinata"
      (addRemotePinServiceCmd plain_env req w).2 = (Err "service not known", w).
Proof. split; reflexivity. Qed.

(** ** [rm]: C2, C3 and C9 *)

Lemma after_nil w : after w [] = w.
Proof. unfold after. rewrite app_nil_r. by destruct w. Qed.

Lemma after_after w evs1 evs2 : after (after w evs1) evs2 = after w (evs1 ++ evs2).
Proof. unfold after. simpl. by rewrite app_assoc. Qed.

Lemma record_after ev w : record ev w = (Ok tt, after w [ev]).
Proof. done. Qed.

Lemma deletions_app tr1 tr2 : deletions (tr1 ++ tr2) = deletions tr1 ++ deletions tr2.
Proof. unfold deletions. apply omap_app. Qed.

(** Resolving a service issues no call and writes nothing. *)
Lemma getRemotePinServiceOrEnv_world E name w :
  (getRemotePinServiceOrEnv E name w).2 = w.
Proof.
  unfold getRemotePinServiceOrEnv, getRemotePinService, open_repo, repo_Config_read.
  destruct (decide (name = "")); [done|]. run.
  destruct (GetConfigRoot E) as [root|]; run; [|done].
  destruct (fsrepo_Open E root); run; [done|].
  destruct (repo_Config E); run; [done|].
  destruct (config.Services (w_config w)) as [m|]; run; [|done].
  by destruct (m !! name).
Qed.

Lemma getRemotePinServiceOrEnv_cases E name w :
  (∃ c, getRemotePinServiceOrEnv E name w = (Ok c, w))
  ∨ (∃ e, getRemotePinServiceOrEnv E name w = (Err e, w)).
Proof.
  unfold getRemotePinServiceOrEnv, getRemotePinService, open_repo, repo_Config_read.
  destruct (decide (name = "")); [right; by eexists|]. run.
  destruct (GetConfigRoot E) as [root|]; run; [|right; by eexists].
  destruct (fsrepo_Open E root); run; [right; by eexists|].
  destruct (repo_Config E); run; [right; by eexists|].
  destruct (config.Services (w_config w)) as [m|]; run; [|right; by eexists].
  destruct (m !! name); [left|right]; by eexists.
Qed.

(** It reads the world for its configuration only. *)
Lemma getRemotePinServiceOrEnv_config E name w1 w2 :
  w_config w1 = w_config w2 →
  (getRemotePinServiceOrEnv E name w1).1 = (getRemotePinServiceOrEnv E name w2).1.
Proof.
  intros Hc.
  unfold getRemotePinServiceOrEnv, getRemotePinService, open_repo, repo_Config_read.
  destruct (decide (name = "")); [done|]. run.
  destruct (GetConfigRoot E) as [root|]; run; [|done].
  destruct (fsrepo_Open E root); run; [done|].
  destruct (repo_Config E); run; [done|]. rewrite Hc.
  destruct (config.Services (w_config w2)) as [m|]; run; [|done].
  by destruct (m !! name).
Qed.

(** The deletions issued for a list of ids: every id up to and
    including the first whose deletion fails. *)
Lemma delete_all_spec E c n ids w :
  ∃ done_ids,
    (delete_all E c n ids w).2 = after w (EvDelete c <$> done_ids)
    ∧ done_ids `prefix_of` ids
    ∧ ((delete_all E c n ids w).1 = Ok tt → done_ids = ids).
Proof.
  revert n w. induction ids as [|id ids IH]; intros n w.
  - exists []. simpl. run. by rewrite after_nil.
  - simpl. run. destruct (client_DeleteByID E n c id) as [err|]; run.
    + exists [id]. split; [done|]. split; [|done]. by apply prefix_cons, prefix_nil.
    + destruct (IH (S n) (after w [EvDelete c id])) as (ds & Hw & Hpre & Hok).
      exists (id :: ds). unfold after in Hw at 2. simpl in Hw.
      unfold after in *. simpl in *. rewrite Hw. simpl. rewrite <-app_assoc. simpl.
      split; [done|]. split; [by apply prefix_cons|]. intros H. f_equal. by apply Hok.
Qed.

(** With explicit request ids, [rm] reads the first one only. *)
Lemma rm_explicit_first_only (E : Env) (req : Request) (w : World)
    (c : pinclient.Client) (id : string) (rest : list string) :
  Arguments req = id :: rest →
  getRemotePinServiceOrEnv E (option_string req pinServiceNameOptionName).1 w = (Ok c, w) →
  rmRemotePinCmd E req w =
    (match client_DeleteByID E 0 c id with
     | Some err => Err ("removing pin with request ID " +:+ id +:+ " (" +:+ err +:+ ")")
     | None => Ok tt
     end, after w [EvDelete c id]).
Proof.
  intros Hargs Hc. unfold rmRemotePinCmd.
  rewrite (bind_Ok _ _ _ _ _ Hc). rewrite Hargs.
  erewrite bind_Ok; [|reflexivity]. simpl. run.
  by destruct (client_DeleteByID E 0 c id).
Qed.

(** Without explicit ids and without force, [rm] goes on to delete
    only when the listing is empty. *)
Lemma rm_refused_iff_any_match (E : Env) (req : Request) (w : World)
    (c : pinclient.Client) (opts : list pinclient.LsOption)
    (pins : list pinclient.PinStatusGetter) :
  Arguments req = [] →
  Options req !! pinForceOptionName = Some (VBool false) →
  getRemotePinServiceOrEnv E (option_string req pinServiceNameOptionName).1 w = (Ok c, w) →
  ls_options E req w = (Ok opts, w) →
  client_Ls E c opts = (pins, None) →
  ((rmRemotePinCmd E req w).1 = Err "multiple pins may be removed, use --force"
     ↔ 0 < length pins)
  ∧ ((rmRemotePinCmd E req w).1 = Err "multiple pins may be removed, use --force" →
     deletions (w_trace (rmRemotePinCmd E req w).2) = deletions (w_trace w)).
Proof.
  intros Hargs Hforce Hc Hopts Hls. unfold rmRemotePinCmd.
  rewrite (bind_Ok _ _ _ _ _ Hc). rewrite Hargs. unfold lsRemote.
  unfold option_bool. rewrite Hforce.
  destruct pins as [|p pins].
  - run. rewrite Hopts. run. rewrite Hls. run.
    split; [|intros H; discriminate H].
    split; [intros H; discriminate H|intros; lia].
  - run. rewrite Hopts. run. rewrite Hls. run. split.
    + split; [intros; lia|done].
    + intros _. rewrite !deletions_app. simpl. by rewrite !app_nil_r.
Qed.

(** C2.  Without explicit ids and with the force flag unset, [rm] is
    refused as soon as the listing has one match, not only when it has
    more than one: for a listing of the single pin [req-1] it returns
    "multiple pins may be removed, use --force" and deletes nothing. *)
Theorem rm_refuses_a_single_match :
  let req := request_of_options [("service", VString "a"); ("force", VBool false)] in
  let r := rmRemotePinCmd one_pin_env req world_bac in
  length (client_Ls one_pin_env client_a []).1 = 1
  ∧ r.1 = Err "multiple pins may be removed, use --force"
  ∧ deletions (w_trace r.2) = [].
Proof. repeat split; vm_compute; reflexivity. Qed.

(** C3.  Given the explicit ids [id1] and [id2], [rm] deletes [id1],
    never attempts [id2], and reports success. *)
Theorem rm_ignores_second_explicit_id :
  let req := {| Arguments := ["id1"; "id2"];
                Options := list_to_map [("service", VString "a"); ("force", VBool false)] |} in
  let r := rmRemotePinCmd plain_env req world_bac in
  r.1 = Ok tt ∧ deletions (w_trace r.2) = ["id1"].
Proof. split; vm_compute; reflexivity. Qed.

(** C9.  When [rm] is given no explicit id and the listing for its
    filters yields no pin and no error, it succeeds whatever the force
    option is (set, unset or absent) and issues no deletion: all it
    does is call the listing and receive its error signal. *)
Theorem rm_no_match_succeeds (E : Env) (req : Request) (w : World)
    (c : pinclient.Client) (opts : list pinclient.LsOption) :
  Arguments req = [] →
  getRemotePinServiceOrEnv E (option_string req pinServiceNameOptionName).1 w = (Ok c, w) →
  ls_options E req w = (Ok opts, w) →
  client_Ls E c opts = ([], None) →
  rmRemotePinCmd E req w = (Ok tt, after w [EvLs c opts; EvRecvErr None])
  ∧ deletions (w_trace (rmRemotePinCmd E req w).2) = deletions (w_trace w).
Proof.
  intros Hargs Hc Hopts Hls.
  assert (Hrm : rmRemotePinCmd E req w = (Ok tt, after w [EvLs c opts; EvRecvErr None])).
  { unfold rmRemotePinCmd. rewrite (bind_Ok _ _ _ _ _ Hc). rewrite Hargs.
    unfold lsRemote. run. rewrite Hopts. run. rewrite Hls. run.
    unfold after. by rewrite <-app_assoc. }
  split; [exact Hrm|]. rewrite Hrm. simpl.
  rewrite deletions_app. simpl. by rewrite app_nil_r.
Qed.

(** [rm] for service ["a"] with no filter, no force option and an empty listing. *)
Lemma rm_no_match_succeeds_witness :
  let req := request_of_options [("service", VString "a")] in
  rmRemotePinCmd plain_env req world_bac
    = (Ok tt, after world_bac [EvLs client_a []; EvRecvErr None])
  ∧ deletions (w_trace (rmRemotePinCmd plain_env req world_bac).2)
    = deletions (w_trace world_bac).
Proof.
  apply (rm_no_match_succeeds plain_env
           (request_of_options [("service", VString "a")]) world_bac client_a []);
    reflexivity.
Defined.

(** ** C4: the delegates of [add] *)

Lemma emissions_app tr1 tr2 : emissions (tr1 ++ tr2) = emissions tr1 ++ emissions tr2.
Proof. unfold emissions. apply omap_app. Qed.

Lemma similar_refl w : similar w w.
Proof. by split. Qed.

Lemma similar_record ev1 ev2 w1 w2 :
  emissions [ev1] = emissions [ev2] → similar w1 w2 →
  similar (after w1 [ev1]) (after w2 [ev2]).
Proof.
  intros Hev [Hc Hem]. split; [done|]. unfold after. simpl.
  rewrite !emissions_app. by rewrite Hev, Hem.
Qed.

Lemma similar_record_l ev w1 w2 :
  emissions [ev] = [] → similar w1 w2 → similar (after w1 [ev]) w2.
Proof.
  intros Hev [Hc Hem]. split; [done|]. unfold after. simpl.
  rewrite emissions_app, Hev, Hem. apply app_nil_r.
Qed.

Lemma similar_record_r ev w1 w2 :
  emissions [ev] = [] → similar w1 w2 → similar w1 (after w2 [ev]).
Proof.
  intros Hev [Hc Hem]. split; [done|]. unfold after. simpl.
  rewrite emissions_app, Hev, Hem. by rewrite app_nil_r.
Qed.

Lemma alike_bind {A B} (m1 m2 : M A) (k1 k2 : A → M B) w1 w2 :
  alike (m1 w1) (m2 w2) →
  (∀ a w1' w2', similar w1' w2' → alike (k1 a w1') (k2 a w2')) →
  alike ((m1 ≫= k1) w1) ((m2 ≫= k2) w2).
Proof.
  unfold alike, mbind, M_bind, bind.
  destruct (m1 w1) as [[a1| | |] w1'], (m2 w2) as [[a2| | |] w2']; simpl;
    intros [Ho Hs] Hk; simplify_eq; eauto.
Qed.

(** Two runs that do the same thing, without a call, on similar worlds. *)
Ltac same := unfold alike, similar in *; run; intuition congruence.

Lemma alike_record {A} ev1 ev2 (k1 k2 : M A) w1 w2 :
  emissions [ev1] = emissions [ev2] → similar w1 w2 →
  (∀ w1' w2', similar w1' w2' → alike (k1 w1') (k2 w2')) →
  alike ((record ev1;; k1) w1) ((record ev2;; k2) w2).
Proof.
  intros Hev Hs Hk. apply alike_bind.
  - split; [done|]. by apply similar_record.
  - intros ? ???. by apply Hk.
Qed.

Lemma alike_emit_all E connect n l w1 w2 :
  similar w1 w2 →
  alike (emit_all (with_Connect E connect) n l w1) (emit_all E n l w2).
Proof.
  revert n w1 w2. induction l as [|v l IH]; intros n w1 w2 Hs; [same|].
  simpl. apply alike_record; [done..|]. intros w1' w2' Hs'.
  apply alike_bind; [destruct (res_Emit E n v); same|]. intros ? ???. by apply IH.
Qed.

Lemma alike_poll E connect c fuel n ps w1 w2 :
  similar w1 w2 →
  alike (poll (with_Connect E connect) c fuel n ps w1) (poll E c fuel n ps w2).
Proof.
  revert n ps w1 w2. induction fuel as [|fuel IH]; intros n ps w1 w2 Hs; [same|].
  simpl. apply alike_record; [done..|]. intros w1' w2' Hs'.
  destruct (client_GetStatusByID E n c (pinclient.GetRequestId ps)) as [ps'|err]; [|same].
  destruct (decide (pinclient.GetStatus ps' = pinclient.StatusPinned)); [same|].
  destruct (decide (pinclient.GetStatus ps' = pinclient.StatusFailed)); [same|].
  apply alike_record; [done..|]. intros w1'' w2'' Hs''.
  destruct (ctx_Done E n); [same|]. by apply IH.
Qed.

Lemma alike_wait_and_emit E connect c fuel req ps w1 w2 :
  similar w1 w2 →
  alike (wait_and_emit (with_Connect E connect) c fuel req ps w1)
        (wait_and_emit E c fuel req ps w2).
Proof.
  intros Hs. unfold wait_and_emit, option_bool.
  apply alike_bind.
  { destruct (Options req !! pinBackgroundOptionName) as [[| |]|]; same. }
  intros background w1' w2' Hs'. apply alike_bind.
  - destruct background; simpl; [same|]. by apply alike_poll.
  - intros ps' ???. by apply alike_emit_all.
Qed.

(** Whatever the connection attempts answer, the loop over the
    delegates ends the same way. *)
Lemma alike_connect_delegates E connect ds w1 w2 :
  similar w1 w2 →
  alike (connect_delegates (with_Connect E connect) ds w1) (connect_delegates E ds w2).
Proof.
  revert w1 w2. induction ds as [|d ds IH]; intros w1 w2 Hs; [same|].
  simpl. destruct (AddrInfoFromP2pAddr E d) as [p|err]; [|same].
  apply alike_bind; [same|]. intros q w1' w2' Hs'.
  apply alike_record; [done..|]. intros w1'' w2'' Hs''.
  apply alike_bind; [|intros ? ???; by apply IH].
  destruct (connect q), (Swarm_Connect E q); try same.
  - split; [done|]. by apply similar_record.
  - split; [done|]. by apply similar_record_l.
  - split; [done|]. by apply similar_record_r.
Qed.

(** The loop over the delegates fails only with the error of a
    delegate address that does not convert. *)
Lemma connect_delegates_outcome E ds w :
  (connect_delegates E ds w).1 = Ok tt
  ∨ ∃ d err, d ∈ ds ∧ AddrInfoFromP2pAddr E d = Failure err
             ∧ (connect_delegates E ds w).1 = Err err.
Proof.
  revert w. induction ds as [|d ds IH]; intros w; [by left|].
  simpl. destruct (AddrInfoFromP2pAddr E d) as [p|err] eqn:Hd.
  - run. destruct (Swarm_Connect E p) as [e|]; run.
    + destruct (IH (after (after w [EvConnect p]) [EvLog d e])) as [Hok|(d' & err & ? & ? & Herr)].
      * left. unfold after in Hok. simpl in Hok.
        by destruct (connect_delegates E ds _) as [[]].
      * right. exists d', err. split; [by right|]. split; [done|].
        unfold after in Herr. simpl in Herr.
        by destruct (connect_delegates E ds _) as [[]].
    + destruct (IH (after w [EvConnect p])) as [Hok|(d' & err & ? & ? & Herr)].
      * left. unfold after in Hok. simpl in Hok.
        by destruct (connect_delegates E ds _) as [[]].
      * right. exists d', err. split; [by right|]. split; [done|].
        unfold after in Herr. simpl in Herr.
        by destruct (connect_delegates E ds _) as [[]].
  - right. exists d, err. split; [by left|]. by split.
Qed.

Lemma connect_delegates_Ok E ds w :
  Forall (converts E) ds →
  connect_delegates E ds w = (Ok tt, after w (delegate_calls E ds)).
Proof.
  intros Hds. revert w. induction Hds as [|d ds [p Hd] _ IH]; intros w; simpl.
  - run. by rewrite after_nil.
  - rewrite Hd. run. destruct (Swarm_Connect E p) as [err|]; run.
    + change {| w_config := w_config w;
                w_trace := (w_trace w ++ [EvConnect p]) ++ [EvLog d err] |}
        with (after (after w [EvConnect p]) [EvLog d err]).
      by rewrite IH, !after_after.
    + change {| w_config := w_config w; w_trace := w_trace w ++ [EvConnect p] |}
        with (after w [EvConnect p]).
      by rewrite IH, !after_after.
Qed.

Lemma connect_delegates_first_failure E pre d post err w :
  Forall (converts E) pre →
  AddrInfoFromP2pAddr E d = Failure err →
  connect_delegates E (pre ++ d :: post) w = (Err err, after w (delegate_calls E pre)).
Proof.
  intros Hpre Hd. revert w. induction Hpre as [|d0 pre [p Hd0] _ IH]; intros w; simpl.
  - rewrite Hd. run. by rewrite after_nil.
  - rewrite Hd0. run. destruct (Swarm_Connect E p) as [e|]; run.
    + change {| w_config := w_config w;
                w_trace := (w_trace w ++ [EvConnect p]) ++ [EvLog d0 e] |}
        with (after (after w [EvConnect p]) [EvLog d0 e]).
      by rewrite IH, !after_after.
    + change {| w_config := w_config w; w_trace := w_trace w ++ [EvConnect p] |}
        with (after w [EvConnect p]).
      by rewrite IH, !after_after.
Qed.

(** Once the API is there, the path and the service resolve and the
    submission is accepted, [add] has issued the submission and is at
    the loop over the delegates. *)
Lemma add_reaches_delegates E fuel req w arg rp c ps :
  GetApi E = None →
  Arguments req = [arg] →
  ResolvePath E arg = Success rp →
  getRemotePinServiceOrEnv E (option_string req pinServiceNameOptionName).1 w = (Ok c, w) →
  client_Add E c rp (name_option req) = Success ps →
  addRemotePinCmd E fuel req w
  = (connect_delegates E (pinclient.GetDelegates ps);; wait_and_emit E c fuel req ps)
      (after w [EvAdd c rp (name_option req)]).
Proof.
  intros Hapi Hargs Hrp Hc Hadd. unfold addRemotePinCmd. rewrite Hapi, Hargs, Hrp.
  erewrite bind_Ok; [|reflexivity]. erewrite bind_Ok; [|reflexivity].
  rewrite (bind_Ok _ _ _ _ _ Hc). fold (name_option req).
  rewrite bind_run, record_after. rewrite Hadd.
  by erewrite bind_Ok; [|reflexivity].
Qed.

(** C4, as amended.  No failure to connect to a delegate makes [add]
    fail: whatever the connection attempts answer, [add] ends with the
    same outcome, the same emitted record and the same configuration,
    and when every delegate address converts, [add] goes through all
    of them (one connection attempt each, failures logged) and on to
    its wait and its emission.  The loop over the delegates stops
    [add] in one case only: at the first delegate address that does
    not convert to peer address information, [add] returns the error
    of the conversion, having tried the delegates before it, and
    neither waits nor emits. *)
Theorem add_outcome_ignores_connect_failures (E : Env)
    (connect : peer.AddrInfo → option error) (fuel : nat) (req : Request) (w : World) :
  alike (addRemotePinCmd (with_Connect E connect) fuel req w) (addRemotePinCmd E fuel req w)
  ∧ (∀ ds w',
      ((connect_delegates E ds w').1 = Ok tt
       ∨ ∃ d err, d ∈ ds ∧ AddrInfoFromP2pAddr E d = Failure err
                  ∧ (connect_delegates E ds w').1 = Err err)
      ∧ (Forall (converts E) ds →
           connect_delegates E ds w' = (Ok tt, after w' (delegate_calls E ds)))
      ∧ (∀ pre d post err,
           ds = pre ++ d :: post →
           Forall (converts E) pre →
           AddrInfoFromP2pAddr E d = Failure err →
           connect_delegates E ds w' = (Err err, after w' (delegate_calls E pre))))
  ∧ ∀ arg rp c ps,
      GetApi E = None →
      Arguments req = [arg] →
      ResolvePath E arg = Success rp →
      getRemotePinServiceOrEnv E (option_string req pinServiceNameOptionName).1 w
        = (Ok c, w) →
      client_Add E c rp (name_option req) = Success ps →
      (Forall (converts E) (pinclient.GetDelegates ps) →
         addRemotePinCmd E fuel req w
         = wait_and_emit E c fuel req ps
             (after w (EvAdd c rp (name_option req)
                       :: delegate_calls E (pinclient.GetDelegates ps))))
      ∧ (∀ pre d post err,
           pinclient.GetDelegates ps = pre ++ d :: post →
           Forall (converts E) pre →
           AddrInfoFromP2pAddr E d = Failure err →
           addRemotePinCmd E fuel req w
           = (Err err, after w (EvAdd c rp (name_option req) :: delegate_calls E pre))).
Proof.
  split; [|split].
  2:{ intros ds w'. split; [apply connect_delegates_outcome|]. split.
      - apply connect_delegates_Ok.
      - intros pre d post err -> Hpre Hd. by apply connect_delegates_first_failure. }
  - unfold addRemotePinCmd.
    change (GetApi (with_Connect E connect)) with (GetApi E).
    change (ResolvePath (with_Connect E connect)) with (ResolvePath E).
    change (client_Add (with_Connect E connect)) with (client_Add E).
    change (getRemotePinServiceOrEnv (with_Connect E connect))
      with (getRemotePinServiceOrEnv E).
    apply alike_bind; [destruct (GetApi E); same|]. intros _ w1 w2 Hs.
    destruct (Arguments req) as [|arg [|??]]; [same| |same].
    apply alike_bind; [destruct (ResolvePath E arg); same|]. intros rp w1' w2' Hs'.
    apply alike_bind.
    { split.
      - apply (getRemotePinServiceOrEnv_config E). apply Hs'.
      - by rewrite !getRemotePinServiceOrEnv_world. }
    intros c w1'' w2'' Hs''.
    apply alike_record; [done..|]. intros v1 v2 Hv.
    apply alike_bind.
    { destruct (client_Add E c rp _); same. }
    intros ps u1 u2 Hu.
    apply alike_bind; [by apply alike_connect_delegates|].
    intros ? ???. by apply alike_wait_and_emit.
  - intros arg rp c ps Hapi Hargs Hrp Hc Hadd.
    rewrite (add_reaches_delegates E fuel req w arg rp c ps) by done.
    split.
    + intros Hds. rewrite (bind_Ok _ _ _ _ _ (connect_delegates_Ok _ _ _ Hds)).
      by rewrite after_after.
    + intros pre d post err Hps Hpre Hd. rewrite Hps.
      rewrite (bind_Err _ _ _ _ _ (connect_delegates_first_failure _ _ _ post _ _ Hpre Hd)).
      by rewrite after_after.
Qed.

(** A service whose first delegate cannot be reached and whose second
    delegate has an address without a peer id: the failed connection
    is logged and the loop goes on; the conversion stops [add]. *)
Lemma add_outcome_ignores_connect_failures_witness :
  addRemotePinCmd mixed_delegates_env 5 (add_request false) world_bac
  = (Err "invalid p2p multiaddr",
     after world_bac [EvAdd client_a "/ipfs/QmSample" [];
                      EvConnect "/p2p/QmDelegate";
                      EvLog "/p2p/QmDelegate" "dial backoff"]).
Proof.
  apply (proj2 (proj2 (proj2 (add_outcome_ignores_connect_failures mixed_delegates_env
                  (λ _, None) 5 (add_request false) world_bac))
           "/ipfs/QmSample" "/ipfs/QmSample" client_a
           (sample_pin "req-1" pinclient.StatusQueued
              ["/p2p/QmDelegate"; "/ip4/198.51.100.7/tcp/4001"])
           eq_refl eq_refl eq_refl eq_refl eq_refl)
           ["/p2p/QmDelegate"] "/ip4/198.51.100.7/tcp/4001" [] "invalid p2p multiaddr"
           eq_refl).
  - repeat constructor. by exists "/p2p/QmDelegate".
  - reflexivity.
Defined.

(** The claim C4 as it was stated fails: the service accepts the pin
    and suggests a delegate address without a peer id; converting the
    address fails, and [add] returns that error without emitting the
    pin. *)
Lemma add_aborts_on_unconvertible_delegate :
  let r := addRemotePinCmd bad_delegate_env 1 (add_request true) world_bac in
  client_Add bad_delegate_env client_a "/ipfs/QmSample" []
    = Success (sample_pin "req-1" pinclient.StatusQueued ["/ip4/198.51.100.7/tcp/4001"])
  ∧ r.1 = Err "invalid p2p multiaddr"
  ∧ emissions (w_trace r.2) = [].
Proof. repeat split; vm_compute; reflexivity. Qed.

(** ** C5: the wait of a synchronous [add] *)

Lemma poll_Ok_pinned E c fuel n ps w ps' w' :
  poll E c fuel n ps w = (Ok ps', w') → pinclient.GetStatus ps' = pinclient.StatusPinned.
Proof.
  revert n ps w. induction fuel as [|fuel IH]; intros n ps w; simpl; run; [done|].
  destruct (client_GetStatusByID E n c (pinclient.GetRequestId ps)) as [ps1|err]; run; [|done].
  destruct (decide (pinclient.GetStatus ps1 = pinclient.StatusPinned)) as [Hp|_]; run.
  { intros [= <- _]. exact Hp. }
  destruct (decide (pinclient.GetStatus ps1 = pinclient.StatusFailed)); run; [done|].
  destruct (ctx_Done E n); run; [done|]. apply IH.
Qed.

Lemma poll_emissions E c fuel n ps w :
  emissions (w_trace (poll E c fuel n ps w).2) = emissions (w_trace w).
Proof.
  revert n ps w. induction fuel as [|fuel IH]; intros n ps w; simpl; run; [done|].
  assert (Hw : emissions (w_trace w ++ [EvGetStatus c (pinclient.GetRequestId ps)])
               = emissions (w_trace w)).
  { rewrite emissions_app. apply app_nil_r. }
  destruct (client_GetStatusByID E n c (pinclient.GetRequestId ps)) as [ps1|err]; run; [|done].
  destruct (decide (pinclient.GetStatus ps1 = pinclient.StatusPinned)); run; [done|].
  destruct (decide (pinclient.GetStatus ps1 = pinclient.StatusFailed)); run; [done|].
  destruct (ctx_Done E n); run.
  - rewrite emissions_app, Hw. apply app_nil_r.
  - match goal with |- context [poll E c fuel (S n) ps1 ?w1] =>
      specialize (IH (S n) ps1 w1) end.
    destruct (poll E c fuel (S n) ps1 _) as [[]]; simpl in *;
      rewrite IH, emissions_app, Hw; apply app_nil_r.
Qed.

(** The status text of a pinned pin is ["pinned"]. *)
Lemma output_pinned E ps :
  pinclient.GetStatus ps = pinclient.StatusPinned → Status (output E ps) = "pinned".
Proof. unfold output. simpl. by intros ->. Qed.

(** When the service answers the first [k]+1 polls for the request
    with [script 0 .. script k], the first [k] of them statuses to
    wait on, and the context is not done at the first [k] waits, the
    loop leaves at poll [k]+1 if the status polled there is terminal. *)
Lemma poll_reaches E c (script : nat → pinclient.PinStatusGetter) k :
  ∀ fuel n ps w,
  k < fuel →
  (∀ i, i ≤ k →
        client_GetStatusByID E (n + i) c (pinclient.GetRequestId ps) = Success (script i)
        ∧ pinclient.GetRequestId (script i) = pinclient.GetRequestId ps) →
  (∀ i, i < k → waiting (pinclient.GetStatus (script i)) ∧ ctx_Done E (n + i) = false) →
  (pinclient.GetStatus (script k) = pinclient.StatusPinned →
     poll E c fuel n ps w
     = (Ok (script k), after w (poll_rounds c (pinclient.GetRequestId ps) k)))
  ∧ (pinclient.GetStatus (script k) = pinclient.StatusFailed →
     poll E c fuel n ps w
     = (Err "failed to pin", after w (poll_rounds c (pinclient.GetRequestId ps) k))).
Proof.
  induction k as [|k IH] in script |- *; intros fuel n ps w Hfuel Hans Hwait.
  - destruct fuel as [|fuel]; [lia|].
    destruct (Hans 0) as [H0 _]; [lia|]. rewrite Nat.add_0_r in H0.
    simpl. run. rewrite H0. run. split; intros Hs.
    + by rewrite decide_True.
    + rewrite decide_False, decide_True; [done..|].
      rewrite Hs. done.
  - destruct fuel as [|fuel]; [lia|].
    destruct (Hans 0) as [H0 Hid]; [lia|]. rewrite Nat.add_0_r in H0.
    destruct (Hwait 0) as [[Hnp Hnf] Hctx]; [lia|]. rewrite Nat.add_0_r in Hctx.
    destruct (IH (λ i, script (S i)) fuel (S n) (script 0)
                 (after w [EvGetStatus c (pinclient.GetRequestId ps); EvWait]))
      as [IHp IHf].
    + lia.
    + intros i Hi. rewrite Hid. replace (S n + i) with (n + S i) by lia.
      apply Hans. lia.
    + intros i Hi. replace (S n + i) with (n + S i) by lia. apply Hwait. lia.
    + rewrite Hid in IHp, IHf.
      assert (Hstep : poll E c (S fuel) n ps w
                = poll E c fuel (S n) (script 0)
                    (after w [EvGetStatus c (pinclient.GetRequestId ps); EvWait])).
      { simpl. run. rewrite H0. run.
        rewrite decide_False, decide_False by done. run. rewrite Hctx.
        unfold after. by rewrite <-app_assoc. }
      rewrite Hstep.
      assert (Htr : ∀ w0, after (after w0 [EvGetStatus c (pinclient.GetRequestId ps); EvWait])
                       (poll_rounds c (pinclient.GetRequestId ps) k)
                     = after w0 (poll_rounds c (pinclient.GetRequestId ps) (S k))).
      { intros w0. rewrite after_after. done. }
      split; intros Hs.
      * rewrite (IHp Hs). by rewrite Htr.
      * rewrite (IHf Hs). by rewrite Htr.
Qed.

Lemma only_pinned_nil E (o : Outcome unit) : o ≠ Ok tt → only_pinned E o [].
Proof. intros Ho. split; [|done]. intros v Hv. by apply not_elem_of_nil in Hv. Qed.

Lemma wait_and_emit_only_pinned E c fuel req ps w :
  Options req !! pinBackgroundOptionName = Some (VBool false) →
  ∃ new,
    emissions (w_trace (wait_and_emit E c fuel req ps w).2) = emissions (w_trace w) ++ new
    ∧ only_pinned E (wait_and_emit E c fuel req ps w).1 new.
Proof.
  intros Hsync. unfold wait_and_emit, option_bool. rewrite Hsync.
  erewrite bind_Ok; [|reflexivity]. simpl.
  pose proof (poll_emissions E c fuel 0 ps w) as Hem. rewrite bind_run.
  destruct (poll E c fuel 0 ps w) as [[ps'| | |] w'] eqn:Hpoll; simpl in Hem.
  - apply poll_Ok_pinned in Hpoll. simpl. run.
    exists [EmitPin (output E ps')].
    assert (emissions (w_trace w' ++ [EvEmit (EmitPin (output E ps'))])
            = emissions (w_trace w) ++ [EmitPin (output E ps')]) as Hone.
    { by rewrite emissions_app, Hem. }
    split; [by destruct (res_Emit E 0 _)|].
    split; [|done]. intros v ->%list_elem_of_singleton.
    exists ps'. split; [done|]. split; [done|]. by apply output_pinned.
  - exists []. simpl. rewrite app_nil_r. split; [done|]. by apply only_pinned_nil.
  - exists []. simpl. rewrite app_nil_r. split; [done|]. by apply only_pinned_nil.
  - exists []. simpl. rewrite app_nil_r. split; [done|]. by apply only_pinned_nil.
Qed.

Lemma connect_delegates_emissions E ds w :
  emissions (w_trace (connect_delegates E ds w).2) = emissions (w_trace w).
Proof.
  revert w. induction ds as [|d ds IH]; intros w; [done|].
  simpl. destruct (AddrInfoFromP2pAddr E d) as [p|err]; run; [|done].
  destruct (Swarm_Connect E p) as [e|]; run.
  - match goal with |- context [connect_delegates E ds ?w1] =>
      specialize (IH w1); destruct (connect_delegates E ds w1) as [[]] end;
      simpl in *; rewrite IH, !emissions_app; simpl; by rewrite !app_nil_r.
  - match goal with |- context [connect_delegates E ds ?w1] =>
      specialize (IH w1); destruct (connect_delegates E ds w1) as [[]] end;
      simpl in *; rewrite IH, !emissions_app; simpl; by rewrite !app_nil_r.
Qed.

(** The same for the whole command. *)
Lemma add_sync_only_pinned E fuel req w :
  Options req !! pinBackgroundOptionName = Some (VBool false) →
  ∃ new,
    emissions (w_trace (addRemotePinCmd E fuel req w).2) = emissions (w_trace w) ++ new
    ∧ only_pinned E (addRemotePinCmd E fuel req w).1 new.
Proof.
  intros Hsync.
  assert (Hnil : ∀ (o : Outcome unit), o ≠ Ok tt →
            ∃ new, emissions (w_trace w) = emissions (w_trace w) ++ new
                   ∧ only_pinned E o new).
  { intros o Ho. exists []. rewrite app_nil_r. split; [done|]. by apply only_pinned_nil. }
  unfold addRemotePinCmd. rewrite bind_run.
  destruct (GetApi E); simpl; [by apply Hnil|].
  destruct (Arguments req) as [|arg [|??]]; [by apply Hnil| |by apply Hnil].
  rewrite bind_run. destruct (ResolvePath E arg) as [rp|]; simpl; [|by apply Hnil].
  rewrite bind_run.
  destruct (getRemotePinServiceOrEnv_cases E
              (option_string req pinServiceNameOptionName).1 w) as [[c ->]|[e ->]];
    [|by apply Hnil].
  rewrite bind_run, record_after, bind_run.
  destruct (client_Add E c rp _) as [ps|]; simpl.
  2:{ exists []. rewrite emissions_app. simpl. split; [done|]. by apply only_pinned_nil. }
  rewrite bind_run.
  match goal with |- context [connect_delegates E ?ds ?w1] =>
    pose proof (connect_delegates_emissions E ds w1) as Hem;
    destruct (connect_delegates_outcome E ds w1) as [Hok|(d & err & _ & _ & Herr)];
    destruct (connect_delegates E ds w1) as [o w2] end; simpl in *; subst o.
  - destruct (wait_and_emit_only_pinned E c fuel req ps w2 Hsync) as (new & Hnew & Honly).
    exists new. rewrite Hnew, Hem, emissions_app. simpl. by rewrite app_nil_r.
  - exists []. simpl. rewrite Hem, emissions_app. simpl. split; [done|].
    by apply only_pinned_nil.
Qed.

Lemma polls_app tr1 tr2 : polls (tr1 ++ tr2) = polls tr1 ++ polls tr2.
Proof. unfold polls. apply omap_app. Qed.

(** A status the wait loop returns is the answer of the poll it made
    last, and that answer is pinned. *)
Lemma poll_Ok_last E c fuel n ps w ps' w' :
  poll E c fuel n ps w = (Ok ps', w') →
  ∃ m requestId evs,
    client_GetStatusByID E m c requestId = Success ps'
    ∧ pinclient.GetStatus ps' = pinclient.StatusPinned
    ∧ w_trace w' = w_trace w ++ evs ++ [EvGetStatus c requestId]
    ∧ length (polls evs) + n = m
    ∧ emissions evs = [].
Proof.
  revert n ps w. induction fuel as [|fuel IH]; intros n ps w; simpl; run; [done|].
  destruct (client_GetStatusByID E n c (pinclient.GetRequestId ps)) as [ps1|err] eqn:Hn;
    run; [|done].
  destruct (decide (pinclient.GetStatus ps1 = pinclient.StatusPinned)) as [Hp|_]; run.
  { intros [= <- <-]. exists n, (pinclient.GetRequestId ps), []. by repeat split. }
  destruct (decide (pinclient.GetStatus ps1 = pinclient.StatusFailed)); run; [done|].
  destruct (ctx_Done E n); run; [done|].
  intros Hpoll. apply IH in Hpoll as (m & id & evs & Hm & Hpinned & Htr & Hlen & Hem).
  exists m, id, ([EvGetStatus c (pinclient.GetRequestId ps); EvWait] ++ evs).
  split; [done|]. split; [done|]. simpl in Htr. split; [|split].
  - rewrite Htr. by rewrite <-!app_assoc.
  - rewrite polls_app. simpl. lia.
  - rewrite emissions_app. by rewrite Hem.
Qed.

(** The loop over the delegates neither polls nor emits. *)
Lemma connect_delegates_trace E ds w :
  ∃ dev, (connect_delegates E ds w).2 = after w dev ∧ polls dev = [] ∧ emissions dev = [].
Proof.
  revert w. induction ds as [|d ds IH]; intros w; simpl.
  - exists []. by rewrite after_nil.
  - destruct (AddrInfoFromP2pAddr E d) as [p|err]; run.
    2:{ exists []. by rewrite after_nil. }
    destruct (Swarm_Connect E p) as [e|]; run.
    + change {| w_config := w_config w;
                w_trace := (w_trace w ++ [EvConnect p]) ++ [EvLog d e] |}
        with (after (after w [EvConnect p]) [EvLog d e]).
      destruct (IH (after (after w [EvConnect p]) [EvLog d e])) as (dev & Hw & Hp & Hem).
      exists ([EvConnect p; EvLog d e] ++ dev). rewrite Hw, !after_after.
      split; [done|]. by rewrite polls_app, emissions_app, Hp, Hem.
    + change {| w_config := w_config w; w_trace := w_trace w ++ [EvConnect p] |}
        with (after w [EvConnect p]).
      destruct (IH (after w [EvConnect p])) as (dev & Hw & Hp & Hem).
      exists ([EvConnect p] ++ dev). rewrite Hw, after_after.
      split; [done|]. by rewrite polls_app, emissions_app, Hp, Hem.
Qed.

(** What a synchronous [add] emits, if anything: the status that
    answered the poll it made last, which is pinned, straight after
    that poll, the [m]+1-st since the submission. *)
Lemma sync_add_emits_last_poll E fuel req w :
  Options req !! pinBackgroundOptionName = Some (VBool false) →
  ∃ new,
    emissions (w_trace (addRemotePinCmd E fuel req w).2) = emissions (w_trace w) ++ new
    ∧ ((addRemotePinCmd E fuel req w).1 = Ok tt → length new = 1)
    ∧ ∀ v, v ∈ new →
        ∃ rp c ps0 ps' m requestId evs,
          client_Add E c rp (name_option req) = Success ps0
          ∧ client_GetStatusByID E m c requestId = Success ps'
          ∧ pinclient.GetStatus ps' = pinclient.StatusPinned
          ∧ v = EmitPin (output E ps')
          ∧ Status (output E ps') = "pinned"
          ∧ w_trace (addRemotePinCmd E fuel req w).2
            = w_trace w ++ EvAdd c rp (name_option req)
                           :: evs ++ [EvGetStatus c requestId; EvEmit v]
          ∧ length (polls evs) = m
          ∧ emissions evs = [].
Proof.
  intros Hsync.
  destruct (addRemotePinCmd E fuel req w) as [o wf] eqn:Hrun. simpl.
  assert (Hnone : o ≠ Ok tt → emissions (w_trace wf) = emissions (w_trace w) →
            ∃ new, emissions (w_trace wf) = emissions (w_trace w) ++ new
                   ∧ (o = Ok tt → length new = 1)
                   ∧ ∀ v, v ∈ new →
                       ∃ rp c ps0 ps' m requestId evs,
                         client_Add E c rp (name_option req) = Success ps0
                         ∧ client_GetStatusByID E m c requestId = Success ps'
                         ∧ pinclient.GetStatus ps' = pinclient.StatusPinned
                         ∧ v = EmitPin (output E ps')
                         ∧ Status (output E ps') = "pinned"
                         ∧ w_trace wf
                           = w_trace w ++ EvAdd c rp (name_option req)
                                          :: evs ++ [EvGetStatus c requestId; EvEmit v]
                         ∧ length (polls evs) = m
                         ∧ emissions evs = []).
  { intros Hr Hem. exists []. rewrite app_nil_r. split; [done|]. split; [done|].
    intros v Hv. by apply not_elem_of_nil in Hv. }
  revert Hrun. unfold addRemotePinCmd. fold (name_option req). rewrite bind_run.
  destruct (GetApi E); simpl; [by intros [= <- <-]; apply Hnone|].
  destruct (Arguments req) as [|arg [|??]];
    [by intros [= <- <-]; apply Hnone| |by intros [= <- <-]; apply Hnone].
  rewrite bind_run.
  destruct (ResolvePath E arg) as [rp|]; simpl; [|by intros [= <- <-]; apply Hnone].
  rewrite bind_run.
  destruct (getRemotePinServiceOrEnv_cases E
              (option_string req pinServiceNameOptionName).1 w) as [[c ->]|[e ->]];
    [|by intros [= <- <-]; apply Hnone].
  rewrite bind_run, record_after, bind_run.
  destruct (client_Add E c rp (name_option req)) as [ps|] eqn:Hadd; simpl.
  2:{ intros [= <- <-]. apply Hnone; [done|]. simpl. rewrite emissions_app.
      apply app_nil_r. }
  rewrite bind_run.
  match goal with |- context [connect_delegates E ?ds ?w1] =>
    destruct (connect_delegates_trace E ds w1) as (dev & Hdev & Hdp & Hde);
    destruct (connect_delegates_outcome E ds w1) as [Hok|(d & err & _ & _ & Herr)];
    destruct (connect_delegates E ds w1) as [o1 w2] end; simpl in *; subst o1 w2.
  2:{ intros [= <- <-]. apply Hnone; [done|]. simpl. rewrite !emissions_app, Hde. simpl.
      by rewrite !app_nil_r. }
  unfold wait_and_emit, option_bool. rewrite Hsync.
  erewrite bind_Ok; [|reflexivity]. simpl. rewrite bind_run.
  match goal with |- context [poll E c fuel 0 ps ?w2] =>
    pose proof (poll_emissions E c fuel 0 ps w2) as Hpe;
    destruct (poll E c fuel 0 ps w2) as [[ps'| | |] w3] eqn:Hpoll end; simpl in Hpe.
  2,3,4: intros [= <- <-]; apply Hnone; [done|]; rewrite Hpe;
         rewrite !emissions_app, Hde; simpl; by rewrite !app_nil_r.
  apply poll_Ok_last in Hpoll as (m & id & evs & Hm & Hpinned & Htr & Hlen & Hem).
  simpl in Htr. rewrite Nat.add_0_r in Hlen. clear Hnone.
  simpl. run. intros Hrun.
  assert (Hwf : w_trace wf = w_trace w3 ++ [EvEmit (EmitPin (output E ps'))]).
  { destruct (res_Emit E 0 _); by injection Hrun as _ <-. }
  exists [EmitPin (output E ps')]. rewrite Hwf.
  split.
  { rewrite emissions_app, Hpe. simpl. rewrite !emissions_app, Hde. simpl.
    by rewrite !app_nil_r. }
  split; [done|].
  intros v ->%list_elem_of_singleton.
  exists rp, c, ps, ps', m, id, (dev ++ evs).
  split; [done|]. split; [done|]. split; [done|]. split; [done|].
  split; [by apply output_pinned|].
  split; [rewrite Htr; simpl; by repeat (rewrite <- ?app_assoc; simpl)|].
  split; [rewrite polls_app, Hdp; simpl; lia|].
  by rewrite emissions_app, Hde, Hem.
Qed.

(** C5.  A synchronous [add] emits a record only for the status that
    answered the poll it made last, and only when that status is
    pinned: it never emits a record of a status it still waits on, and
    a run that succeeds has emitted exactly one record.  Once the pin
    is submitted and the delegates are gone through: when the service
    answers [k] polls with statuses to wait on and the next with
    [failed], [add] returns "failed to pin" and emits nothing; when it
    answers the next with [pinned], [add] emits that status after
    [k]+1 polls, not before, and returns what the emission returns. *)
Theorem sync_add_waits_for_terminal_status (E : Env) (fuel : nat) (req : Request)
    (w : World) :
  Options req !! pinBackgroundOptionName = Some (VBool false) →
  (∃ new,
      emissions (w_trace (addRemotePinCmd E fuel req w).2) = emissions (w_trace w) ++ new
      ∧ ((addRemotePinCmd E fuel req w).1 = Ok tt → length new = 1)
      ∧ ∀ v, v ∈ new →
          ∃ rp c ps0 ps' m requestId evs,
            client_Add E c rp (name_option req) = Success ps0
            ∧ client_GetStatusByID E m c requestId = Success ps'
            ∧ pinclient.GetStatus ps' = pinclient.StatusPinned
            ∧ v = EmitPin (output E ps')
            ∧ Status (output E ps') = "pinned"
            ∧ w_trace (addRemotePinCmd E fuel req w).2
              = w_trace w ++ EvAdd c rp (name_option req)
                             :: evs ++ [EvGetStatus c requestId; EvEmit v]
            ∧ length (polls evs) = m
            ∧ emissions evs = [])
  ∧ ∀ (arg : string) (rp : cid.Cid) (c : pinclient.Client)
      (ps : pinclient.PinStatusGetter) (script : nat → pinclient.PinStatusGetter)
      (k : nat),
      GetApi E = None →
      Arguments req = [arg] →
      ResolvePath E arg = Success rp →
      getRemotePinServiceOrEnv E (option_string req pinServiceNameOptionName).1 w
        = (Ok c, w) →
      client_Add E c rp (name_option req) = Success ps →
      Forall (converts E) (pinclient.GetDelegates ps) →
      k < fuel →
      (∀ i, i ≤ k →
            client_GetStatusByID E i c (pinclient.GetRequestId ps) = Success (script i)
            ∧ pinclient.GetRequestId (script i) = pinclient.GetRequestId ps) →
      (∀ i, i < k → waiting (pinclient.GetStatus (script i)) ∧ ctx_Done E i = false) →
      (pinclient.GetStatus (script k) = pinclient.StatusFailed →
         addRemotePinCmd E fuel req w
         = (Err "failed to pin",
            after w (EvAdd c rp (name_option req)
                     :: delegate_calls E (pinclient.GetDelegates ps)
                     ++ poll_rounds c (pinclient.GetRequestId ps) k)))
      ∧ (pinclient.GetStatus (script k) = pinclient.StatusPinned →
         addRemotePinCmd E fuel req w
         = (match res_Emit E 0 (EmitPin (output E (script k))) with
            | Some err => Err err
            | None => Ok tt
            end,
            after w (EvAdd c rp (name_option req)
                     :: delegate_calls E (pinclient.GetDelegates ps)
                     ++ poll_rounds c (pinclient.GetRequestId ps) k
                     ++ [EvEmit (EmitPin (output E (script k)))]))).
Proof.
  intros Hsync. split; [by apply sync_add_emits_last_poll|].
  intros arg rp c ps script k Hapi Hargs Hrp Hc Hadd Hds Hfuel Hans Hwait.
  rewrite (add_reaches_delegates E fuel req w arg rp c ps) by done.
  rewrite (bind_Ok _ _ _ _ _ (connect_delegates_Ok _ _ _ Hds)), after_after.
  unfold wait_and_emit, option_bool. rewrite Hsync.
  erewrite bind_Ok; [|reflexivity]. simpl.
  destruct (poll_reaches E c script k fuel 0 ps
              (after w (EvAdd c rp (name_option req)
                        :: delegate_calls E (pinclient.GetDelegates ps)))
              Hfuel Hans Hwait) as [Hp Hf].
  split; intros Hs.
  - rewrite (bind_Err _ _ _ _ _ (Hf Hs)). by rewrite after_after.
  - rewrite (bind_Ok _ _ _ _ _ (Hp Hs)). simpl. run.
    destruct (res_Emit E 0 _); unfold after; simpl;
      by repeat (rewrite <- ?app_assoc; simpl).
Qed.

(** A service that reports queued, pinning and then pinned, and one
    that reports queued, pinning and then failed. *)
Lemma sync_add_waits_for_terminal_status_witness :
  addRemotePinCmd (progress_env pinclient.StatusPinned) 5 (add_request false) world_bac
  = (Ok tt,
     after world_bac
       (EvAdd client_a "/ipfs/QmSample" []
        :: [EvConnect "/p2p/QmDelegate"; EvLog "/p2p/QmDelegate" "dial backoff"]
        ++ poll_rounds client_a "req-1" 2
        ++ [EvEmit (EmitPin (output (progress_env pinclient.StatusPinned)
                               (sample_pin "req-1" pinclient.StatusPinned
                                  ["/p2p/QmDelegate"])))]))
  ∧ addRemotePinCmd (progress_env pinclient.StatusFailed) 5 (add_request false) world_bac
    = (Err "failed to pin",
       after world_bac
         (EvAdd client_a "/ipfs/QmSample" []
          :: [EvConnect "/p2p/QmDelegate"; EvLog "/p2p/QmDelegate" "dial backoff"]
          ++ poll_rounds client_a "req-1" 2)).
Proof.
  split.
  - destruct (proj2 (sync_add_waits_for_terminal_status
                       (progress_env pinclient.StatusPinned) 5 (add_request false)
                       world_bac eq_refl)
                "/ipfs/QmSample" "/ipfs/QmSample" client_a
                (sample_pin "req-1" pinclient.StatusQueued ["/p2p/QmDelegate"])
                (λ i, sample_pin "req-1"
                        (match i with
                         | 0 => pinclient.StatusQueued
                         | 1 => pinclient.StatusPinning
                         | _ => pinclient.StatusPinned
                         end) ["/p2p/QmDelegate"]) 2) as [_ Hpinned];
      [reflexivity..| | | | |exact (Hpinned eq_refl)].
    + repeat constructor. by exists "/p2p/QmDelegate".
    + lia.
    + intros i Hi. split; reflexivity.
    + intros i Hi. destruct i as [|[|i]]; [| |lia]; by repeat split.
  - destruct (proj2 (sync_add_waits_for_terminal_status
                       (progress_env pinclient.StatusFailed) 5 (add_request false)
                       world_bac eq_refl)
                "/ipfs/QmSample" "/ipfs/QmSample" client_a
                (sample_pin "req-1" pinclient.StatusQueued ["/p2p/QmDelegate"])
                (λ i, sample_pin "req-1"
                        (match i with
                         | 0 => pinclient.StatusQueued
                         | 1 => pinclient.StatusPinning
                         | _ => pinclient.StatusFailed
                         end) ["/p2p/QmDelegate"]) 2) as [Hfailed _];
      [reflexivity..| | | | |exact (Hfailed eq_refl)].
    + repeat constructor. by exists "/p2p/QmDelegate".
    + lia.
    + intros i Hi. split; reflexivity.
    + intros i Hi. destruct i as [|[|i]]; [| |lia]; by repeat split.
Defined.

(** A synchronous [add] against a service that reports queued,
    pinning, pinned: three polls, then one record, with status pinned.
    Against a service that ends on failed: "failed to pin", and no
    record. *)
Example sync_add_queued_pinning_pinned :
  let r := addRemotePinCmd (progress_env pinclient.StatusPinned) 5 (add_request false)
             world_bac in
  let r' := addRemotePinCmd (progress_env pinclient.StatusFailed) 5 (add_request false)
              world_bac in
  r.1 = Ok tt
  ∧ emissions (w_trace r.2)
    = [EmitPin {| RequestID := "req-1"; Name := ""; Delegates := ["/p2p/QmDelegate"];
                  Status := "pinned"; Cid := "QmSample" |}]
  ∧ polls (w_trace r.2) = ["req-1"; "req-1"; "req-1"]
  ∧ r'.1 = Err "failed to pin"
  ∧ emissions (w_trace r'.2) = [].
Proof. repeat split; vm_compute; reflexivity. Qed.

(** ** The filters of [ls] and [rm]: C6 and C10 *)

Lemma refused_unnamed E s : s ∉ pinclient.named → refused E s.
Proof. intros Hs. unfold refused, pinclient.Status_String. by rewrite bool_decide_false. Qed.

Lemma accepted_named E s :
  ¬ refused E s → s ∈ pinclient.named ∧ s ≠ StatusUnknown E.
Proof.
  unfold refused, pinclient.Status_String.
  case_bool_decide as Hin; intros Hs; [|done]. by split.
Qed.

Lemma named_accepted E s :
  StatusUnknown E ∉ pinclient.named → s ∈ pinclient.named → ¬ refused E s.
Proof.
  unfold refused, pinclient.Status_String. intros Hunk Hs.
  rewrite bool_decide_true by done. by intros ->.
Qed.

Lemma unknown_unnamed : "unknown" ∉ pinclient.named.
Proof. apply (bool_decide_unpack _). by vm_compute. Qed.

Lemma parse_statuses_cases E l w :
  (∃ ss, parse_statuses E l w = (Ok ss, w))
  ∨ (∃ e, parse_statuses E l w = (Err e, w)).
Proof.
  induction l as [|s l IH]; simpl; [left; by eexists|].
  destruct (decide _); [right; by eexists|].
  rewrite bind_run. destruct IH as [[ss ->]|[e ->]]; [left|right]; by eexists.
Qed.

(** The statuses that pass are the raw ones, each of them named. *)
Lemma parse_statuses_Ok E l w ss w' :
  parse_statuses E l w = (Ok ss, w') →
  ss = l ∧ Forall (λ s, s ∈ pinclient.named ∧ s ≠ StatusUnknown E) l.
Proof.
  revert ss w'. induction l as [|s l IH]; intros ss w'; simpl.
  - by intros [= <- _].
  - destruct (decide _) as [|Hacc]; [done|]. rewrite bind_run.
    destruct (parse_statuses E l w) as [[ss'| | |] w1] eqn:Hl; try done.
    intros [= <- _]. destruct (IH ss' w1 eq_refl) as [-> Hall].
    split; [done|]. constructor; [by apply accepted_named|done].
Qed.

Lemma parse_statuses_unnamed E l w tok :
  tok ∈ l → tok ∉ pinclient.named → ∃ e, parse_statuses E l w = (Err e, w).
Proof.
  intros Hin Hun. destruct (parse_statuses_cases E l w) as [[ss Hok]|Herr]; [|done].
  apply parse_statuses_Ok in Hok as [_ Hall].
  rewrite Forall_forall in Hall. by destruct (Hall tok Hin).
Qed.

(** The error names the first raw status that is not named. *)
Lemma parse_statuses_first E l w tok :
  StatusUnknown E ∉ pinclient.named →
  tok ∈ l → tok ∉ pinclient.named →
  ∃ pre bad post,
    l = pre ++ bad :: post ∧ Forall (λ s, s ∈ pinclient.named) pre
    ∧ (bad ∉ pinclient.named)
    ∧ parse_statuses E l w = (Err ("status " +:+ bad +:+ " is not valid"), w).
Proof.
  intros Hunk. induction l as [|s l IH]; intros Hin Hun; [by apply not_elem_of_nil in Hin|].
  simpl. destruct (decide (s ∈ pinclient.named)) as [Hs|Hs].
  - rewrite decide_False by (by apply named_accepted).
    apply elem_of_cons in Hin as [->|Hin]; [done|].
    destruct (IH Hin Hun) as (pre & bad & post & -> & Hpre & Hbad & Hparse).
    exists (s :: pre), bad, post. split; [done|]. split; [by constructor|].
    split; [done|]. by rewrite bind_run, Hparse.
  - rewrite decide_True by (by apply refused_unnamed).
    exists [], s, l. by repeat split.
Qed.

Lemma decode_cids_all E l w :
  Forall (decodes E) l → ∃ cs, decode_cids E l w = (Ok cs, w).
Proof.
  induction 1 as [|raw l [parsed Hraw] _ [cs IH]]; simpl; [by eexists|].
  rewrite Hraw, bind_run, IH. by eexists.
Qed.

Lemma decode_cids_first E pre raw post err w :
  Forall (decodes E) pre → cid_Decode E raw = Failure err →
  decode_cids E (pre ++ raw :: post) w
  = (Err ("CID " +:+ raw +:+ " cannot be parsed (" +:+ err +:+ ")"), w).
Proof.
  intros Hpre Hraw. induction Hpre as [|r pre [parsed Hr] _ IH]; simpl.
  - by rewrite Hraw.
  - by rewrite Hr, bind_run, IH.
Qed.

Lemma decode_cids_cases E l w :
  (∃ cs, decode_cids E l w = (Ok cs, w)) ∨ (∃ e, decode_cids E l w = (Err e, w)).
Proof.
  induction l as [|raw l IH]; simpl; [left; by eexists|].
  destruct (cid_Decode E raw); [|right; by eexists].
  rewrite bind_run. destruct IH as [[cs ->]|[e ->]]; [left|right]; by eexists.
Qed.

Lemma cid_filter_cases E req opts w :
  (∃ opts', cid_filter E req opts w = (Ok opts', w))
  ∨ (∃ e, cid_filter E req opts w = (Err e, w)).
Proof.
  unfold cid_filter.
  destruct (option_strings req pinCIDsOptionName) as [cidsRaw [|]]; [|left; by eexists].
  rewrite bind_run.
  destruct (decode_cids_cases E cidsRaw w) as [[cs ->]|[e ->]]; [left|right]; by eexists.
Qed.

Lemma status_filter_cases E req opts w :
  (∃ opts', status_filter E req opts w = (Ok opts', w))
  ∨ (∃ e, status_filter E req opts w = (Err e, w)).
Proof.
  unfold status_filter.
  destruct (option_strings req pinStatusOptionName) as [statusRaw [|]]; [|left; by eexists].
  rewrite bind_run.
  destruct (parse_statuses_cases E statusRaw w) as [[ss ->]|[e ->]]; [left|right]; by eexists.
Qed.

(** Building the filters issues no call: it ends with the filters or
    with an error, in the world it started in. *)
Lemma ls_options_cases E req w :
  (∃ opts, ls_options E req w = (Ok opts, w)) ∨ (∃ e, ls_options E req w = (Err e, w)).
Proof.
  unfold ls_options. rewrite bind_run.
  destruct (cid_filter_cases E req (name_filter req) w) as [[opts ->]|[e ->]];
    [|right; by eexists].
  apply status_filter_cases.
Qed.

(** A request whose filters are refused makes [ls], and [rm] without
    explicit ids, fail before any call. *)
Lemma refused_filters_stop_commands E req w :
  (∃ e, ls_options E req w = (Err e, w)) →
  (∀ c, ∃ e, lsRemote E req c w = (Err e, w))
  ∧ (∃ e, listRemotePinCmd E req w = (Err e, w))
  ∧ (Arguments req = [] → ∃ e, rmRemotePinCmd E req w = (Err e, w)).
Proof.
  intros [e Hopts].
  assert (Hls : ∀ c, lsRemote E req c w = (Err e, w)).
  { intros c. unfold lsRemote. by rewrite bind_run, Hopts. }
  split; [intros c; by eexists|].
  split.
  - unfold listRemotePinCmd. rewrite bind_run.
    destruct (getRemotePinServiceOrEnv_cases E
                (option_string req pinServiceNameOptionName).1 w) as [[c ->]|[e' ->]];
      [|by eexists].
    rewrite bind_run, Hls. by eexists.
  - intros Hargs. unfold rmRemotePinCmd. rewrite bind_run.
    destruct (getRemotePinServiceOrEnv_cases E
                (option_string req pinServiceNameOptionName).1 w) as [[c ->]|[e' ->]];
      [|by eexists].
    rewrite Hargs, !bind_run, Hls. by eexists.
Qed.

Lemma lsRemote_first_status E req c w opts statusRaw bad :
  cid_filter E req (name_filter req) w = (Ok opts, w) →
  option_strings req pinStatusOptionName = (statusRaw, true) →
  parse_statuses E statusRaw w = (Err ("status " +:+ bad +:+ " is not valid"), w) →
  lsRemote E req c w = (Err ("status " +:+ bad +:+ " is not valid"), w).
Proof.
  intros Hcid Hopt Hparse. unfold lsRemote, ls_options.
  rewrite !bind_run, Hcid. unfold status_filter. by rewrite Hopt, bind_run, Hparse.
Qed.

(** C6, as amended.  When the status filter of a request holds a token
    that is not one of queued, pinning, pinned and failed, [lsRemote]
    returns an error and calls nothing, and so do [ls] and [rm]
    without explicit ids.  The error of [lsRemote] is "status <token>
    is not valid" for the first such token when every CID of the
    request parses; when one does not, the error is the one of the
    first CID that does not parse. *)
Theorem ls_rejects_unrecognized_status (E : Env) (req : Request) (w : World)
    (statusRaw : list string) (tok : string) :
  option_strings req pinStatusOptionName = (statusRaw, true) →
  tok ∈ statusRaw →
  tok ∉ pinclient.named →
  ((∀ c, ∃ e, lsRemote E req c w = (Err e, w))
   ∧ (∃ e, listRemotePinCmd E req w = (Err e, w))
   ∧ (Arguments req = [] → ∃ e, rmRemotePinCmd E req w = (Err e, w)))
  ∧ (StatusUnknown E ∉ pinclient.named →
     (∀ cidsRaw, option_strings req pinCIDsOptionName = (cidsRaw, true) →
                 Forall (decodes E) cidsRaw) →
     ∃ pre bad post,
       statusRaw = pre ++ bad :: post
       ∧ Forall (λ s, s ∈ pinclient.named) pre
       ∧ (bad ∉ pinclient.named)
       ∧ ∀ c, lsRemote E req c w = (Err ("status " +:+ bad +:+ " is not valid"), w))
  ∧ (∀ pre raw post err,
       option_strings req pinCIDsOptionName = (pre ++ raw :: post, true) →
       Forall (decodes E) pre →
       cid_Decode E raw = Failure err →
       ∀ c, lsRemote E req c w
            = (Err ("CID " +:+ raw +:+ " cannot be parsed (" +:+ err +:+ ")"), w)).
Proof.
  intros Hopt Hin Hun. split; [|split].
  - apply refused_filters_stop_commands. unfold ls_options. rewrite bind_run.
    destruct (cid_filter_cases E req (name_filter req) w) as [[opts ->]|[e ->]];
      [|by eexists].
    unfold status_filter. rewrite Hopt, bind_run.
    destruct (parse_statuses_unnamed E statusRaw w tok Hin Hun) as [e ->]. by eexists.
  - intros Hunk Hcids.
    destruct (parse_statuses_first E statusRaw w tok Hunk Hin Hun)
      as (pre & bad & post & Hl & Hpre & Hbad & Hparse).
    exists pre, bad, post. repeat split; try done. intros c.
    assert (∃ opts, cid_filter E req (name_filter req) w = (Ok opts, w)) as [opts Hcid].
    { unfold cid_filter.
      destruct (option_strings req pinCIDsOptionName) as [cidsRaw [|]] eqn:Hc;
        [|by eexists].
      destruct (decode_cids_all E cidsRaw w (Hcids _ eq_refl)) as [cs Hcs].
      rewrite bind_run, Hcs. by eexists. }
    by eapply lsRemote_first_status.
  - intros pre raw post err Hc Hpre Hraw c.
    unfold lsRemote, ls_options, cid_filter. rewrite Hc, !bind_run.
    by rewrite (decode_cids_first E pre raw post err w Hpre Hraw).
Qed.

(** The status filter [queued, bogus, pinned]. *)
Lemma ls_rejects_unrecognized_status_witness :
  let req := request_of_options [("service", VString "a");
                                 ("status", VStrings ["queued"; "bogus"; "pinned"])] in
  ((∀ c, ∃ e, lsRemote plain_env req c world_bac = (Err e, world_bac))
   ∧ (∃ e, listRemotePinCmd plain_env req world_bac = (Err e, world_bac))
   ∧ (Arguments req = [] → ∃ e, rmRemotePinCmd plain_env req world_bac = (Err e, world_bac)))
  ∧ lsRemote plain_env req client_a world_bac
    = (Err "status bogus is not valid", world_bac).
Proof.
  split.
  - apply (ls_rejects_unrecognized_status plain_env
             (request_of_options [("service", VString "a");
                                  ("status", VStrings ["queued"; "bogus"; "pinned"])])
             world_bac ["queued"; "bogus"; "pinned"] "bogus" eq_refl).
    + apply (bool_decide_unpack _). by vm_compute.
    + apply (bool_decide_unpack _). by vm_compute.
  - reflexivity.
Defined.

(** The claim C6 as it was stated fails: with a CID that does not
    parse and the status token [bogus], the error names the CID and
    not the token. *)
Lemma ls_names_unparsable_cid_first :
  let req := request_of_options [("cid", VStrings [""]); ("status", VStrings ["bogus"])] in
  lsRemote plain_env req client_a world_bac
    = (Err "CID  cannot be parsed (cid too short)", world_bac)
  ∧ lsRemote plain_env req client_a world_bac
    ≠ (Err "status bogus is not valid", world_bac).
Proof. split; [reflexivity|]. by vm_compute. Qed.

Lemma status_filter_statuses E req opts w opts' w' l :
  status_filter E req opts w = (Ok opts', w') →
  (∀ l0, pinclient.FilterStatus l0 ∉ opts) →
  pinclient.FilterStatus l ∈ opts' →
  Forall (λ s, s ∈ pinclient.named ∧ s ≠ StatusUnknown E) l.
Proof.
  unfold status_filter. intros Hrun Hnone Hl.
  destruct (option_strings req pinStatusOptionName) as [statusRaw [|]].
  - rewrite bind_run in Hrun.
    destruct (parse_statuses E statusRaw w) as [[ss| | |] w1] eqn:Hparse; try done.
    injection Hrun as <- _. apply parse_statuses_Ok in Hparse as [-> Hall].
    apply elem_of_app in Hl as [Hl|Hl]; [by apply Hnone in Hl|].
    apply list_elem_of_singleton in Hl. by injection Hl as ->.
  - injection Hrun as <- _. by apply Hnone in Hl.
Qed.

(** The filters handed to the client hold named statuses only. *)
Lemma ls_options_statuses E req w opts w' l :
  ls_options E req w = (Ok opts, w') →
  pinclient.FilterStatus l ∈ opts →
  Forall (λ s, s ∈ pinclient.named ∧ s ≠ StatusUnknown E) l.
Proof.
  unfold ls_options. rewrite bind_run.
  destruct (cid_filter E req (name_filter req) w) as [[opts0| | |] w0] eqn:Hcid; try done.
  intros Hst. eapply status_filter_statuses; [exact Hst|].
  intros l0 Hl0. unfold cid_filter, name_filter in Hcid.
  destruct (option_string req pinNameOptionName) as [name [|]];
    destruct (option_strings req pinCIDsOptionName) as [cidsRaw [|]];
    try (rewrite bind_run in Hcid;
         destruct (decode_cids E cidsRaw w) as [[cs| | |] w1]; try done);
    injection Hcid as <- _; apply list_elem_of_In in Hl0; simpl in Hl0;
    intuition discriminate.
Qed.

Lemma lsRemote_Ok E req c w r w' :
  lsRemote E req c w = (Ok r, w') →
  ∃ opts, ls_options E req w = (Ok opts, w)
          ∧ w' = after w [EvLs c opts] ∧ r = client_Ls E c opts.
Proof.
  unfold lsRemote. rewrite bind_run.
  destruct (ls_options_cases E req w) as [[opts Hopts]|[e Hopts]]; rewrite Hopts; [|done].
  run. intros [= <- <-]. by exists opts.
Qed.

(** The error names the raw status at which the loop stops. *)
Lemma parse_statuses_at E pre bad post w :
  StatusUnknown E ∉ pinclient.named →
  Forall (λ s, s ∈ pinclient.named) pre →
  bad ∉ pinclient.named →
  parse_statuses E (pre ++ bad :: post) w
  = (Err ("status " +:+ bad +:+ " is not valid"), w).
Proof.
  intros Hunk Hpre Hbad. induction Hpre as [|s pre Hs _ IH]; simpl.
  - by rewrite decide_True by (by apply refused_unnamed).
  - rewrite decide_False by (by apply named_accepted).
    by rewrite bind_run, IH.
Qed.

Lemma cid_filter_decodes E req opts w :
  (∀ cidsRaw, option_strings req pinCIDsOptionName = (cidsRaw, true) →
              Forall (decodes E) cidsRaw) →
  ∃ opts', cid_filter E req opts w = (Ok opts', w).
Proof.
  intros Hcids. unfold cid_filter.
  destruct (option_strings req pinCIDsOptionName) as [cidsRaw [|]] eqn:Hc;
    [|by eexists].
  destruct (decode_cids_all E cidsRaw w (Hcids _ eq_refl)) as [cs Hcs].
  rewrite bind_run, Hcs. by eexists.
Qed.

(** C10, as amended.  The token ["unknown"] in a status filter is
    refused by the very test that refuses a token the client has never
    heard of, with the same error text: a request whose status filter
    holds it makes [lsRemote], [ls] and [rm] without explicit ids fail
    before any call, and when the CIDs of the request parse and
    ["unknown"] is the first token that is not a named status, the
    error of [lsRemote], of [ls] and of [rm] without explicit ids is
    "status unknown is not valid".  Hence every status filter that
    reaches the client holds statuses among queued, pinning, pinned
    and failed only, none of them the unknown status.  [rm] with an
    explicit request id does not read the status filter: it deletes
    that id, whatever the filter holds. *)
Theorem ls_rejects_unknown_status (E : Env) (req : Request) (w : World)
    (statusRaw : list string) :
  option_strings req pinStatusOptionName = (statusRaw, true) →
  "unknown" ∈ statusRaw →
  ((∀ c, ∃ e, lsRemote E req c w = (Err e, w))
   ∧ (∃ e, listRemotePinCmd E req w = (Err e, w))
   ∧ (Arguments req = [] → ∃ e, rmRemotePinCmd E req w = (Err e, w)))
  ∧ (refused E "unknown"
     ∧ parse_statuses E ["unknown"] w = (Err "status unknown is not valid", w)
     ∧ ∀ tok, tok ∉ pinclient.named →
         refused E tok
         ∧ parse_statuses E [tok] w = (Err ("status " +:+ tok +:+ " is not valid"), w))
  ∧ (∀ req' c w1 r w2,
       lsRemote E req' c w1 = (Ok r, w2) →
       ∃ opts, w2 = after w1 [EvLs c opts] ∧ r = client_Ls E c opts
               ∧ ∀ l s, pinclient.FilterStatus l ∈ opts → s ∈ l →
                        s ∈ pinclient.named ∧ s ≠ StatusUnknown E ∧ s ≠ "unknown")
  ∧ (∀ pre post,
       StatusUnknown E ∉ pinclient.named →
       (∀ cidsRaw, option_strings req pinCIDsOptionName = (cidsRaw, true) →
                   Forall (decodes E) cidsRaw) →
       statusRaw = pre ++ "unknown" :: post →
       Forall (λ s, s ∈ pinclient.named) pre →
       (∀ c, lsRemote E req c w = (Err "status unknown is not valid", w))
       ∧ ∀ c,
           getRemotePinServiceOrEnv E (option_string req pinServiceNameOptionName).1 w
             = (Ok c, w) →
           listRemotePinCmd E req w = (Err "status unknown is not valid", w)
           ∧ (Arguments req = [] →
              rmRemotePinCmd E req w = (Err "status unknown is not valid", w)))
  ∧ (∀ c id rest,
       Arguments req = id :: rest →
       getRemotePinServiceOrEnv E (option_string req pinServiceNameOptionName).1 w
         = (Ok c, w) →
       rmRemotePinCmd E req w
       = (match client_DeleteByID E 0 c id with
          | Some err => Err ("removing pin with request ID " +:+ id +:+ " (" +:+ err +:+ ")")
          | None => Ok tt
          end, after w [EvDelete c id])).
Proof.
  intros Hopt Hin.
  assert (Hone : ∀ tok, tok ∉ pinclient.named →
            refused E tok
            ∧ parse_statuses E [tok] w = (Err ("status " +:+ tok +:+ " is not valid"), w)).
  { intros tok Hun. split; [by apply refused_unnamed|].
    simpl. by rewrite decide_True by (by apply refused_unnamed). }
  split; [|split; [|split; [|split]]].
  - apply refused_filters_stop_commands. unfold ls_options. rewrite bind_run.
    destruct (cid_filter_cases E req (name_filter req) w) as [[opts ->]|[e ->]];
      [|by eexists].
    unfold status_filter. rewrite Hopt, bind_run.
    destruct (parse_statuses_unnamed E statusRaw w "unknown" Hin unknown_unnamed) as [e ->].
    by eexists.
  - destruct (Hone "unknown" unknown_unnamed) as [Href Hparse].
    split; [exact Href|]. split; [exact Hparse|exact Hone].
  - intros req' c w1 r w2 Hls.
    apply lsRemote_Ok in Hls as (opts & Hopts & -> & ->).
    exists opts. split; [done|]. split; [done|]. intros l s Hl Hs.
    pose proof (ls_options_statuses E req' w1 opts w1 l Hopts Hl) as Hall.
    rewrite Forall_forall in Hall. destruct (Hall s Hs) as [Hnamed Hunk].
    split; [done|]. split; [done|]. intros ->. by apply unknown_unnamed.
  - intros pre post Hunk Hcids Hraw Hpre.
    destruct (cid_filter_decodes E req (name_filter req) w Hcids) as [opts Hcid].
    assert (Hls : ∀ c, lsRemote E req c w = (Err "status unknown is not valid", w)).
    { intros c.
      apply (lsRemote_first_status E req c w opts statusRaw "unknown" Hcid Hopt).
      rewrite Hraw. by apply parse_statuses_at; [| |apply unknown_unnamed]. }
    split; [exact Hls|]. intros c Hc. split.
    + unfold listRemotePinCmd. rewrite (bind_Ok _ _ _ _ _ Hc).
      by rewrite bind_run, Hls.
    + intros Hargs. unfold rmRemotePinCmd. rewrite (bind_Ok _ _ _ _ _ Hc).
      by rewrite Hargs, !bind_run, Hls.
  - intros c id rest Hargs Hc. by apply (rm_explicit_first_only E req w c id rest).
Qed.

(** The status filter [pinned, unknown] of [ls] and of [rm] without
    explicit ids. *)
Lemma ls_rejects_unknown_status_witness :
  let req := request_of_options [("service", VString "a");
                                 ("status", VStrings ["pinned"; "unknown"])] in
  ((∀ c, ∃ e, lsRemote plain_env req c world_bac = (Err e, world_bac))
   ∧ (∃ e, listRemotePinCmd plain_env req world_bac = (Err e, world_bac))
   ∧ (Arguments req = [] → ∃ e, rmRemotePinCmd plain_env req world_bac = (Err e, world_bac)))
  ∧ listRemotePinCmd plain_env req world_bac
    = (Err "status unknown is not valid", world_bac)
  ∧ rmRemotePinCmd plain_env req world_bac
    = (Err "status unknown is not valid", world_bac).
Proof.
  destruct (ls_rejects_unknown_status plain_env
              (request_of_options [("service", VString "a");
                                   ("status", VStrings ["pinned"; "unknown"])])
              world_bac ["pinned"; "unknown"] eq_refl) as (Hstop & _ & _ & Hfirst & _).
  { apply (bool_decide_unpack _). by vm_compute. }
  split; [exact Hstop|].
  destruct (Hfirst ["pinned"] []) as [_ Hcmd].
  - apply (bool_decide_unpack _). by vm_compute.
  - intros cidsRaw [=].
  - reflexivity.
  - constructor; [|constructor]. apply (bool_decide_unpack _). by vm_compute.
  - destruct (Hcmd client_a eq_refl) as [Hlist Hrm].
    split; [exact Hlist|exact (Hrm eq_refl)].
Defined.

(** The claim C10 as it was stated fails for [rm] with an explicit
    request id: the status filter [unknown] is not refused, the
    request is not rejected, and the pin [r1] is deleted. *)
Lemma rm_explicit_id_accepts_unknown_status :
  option_strings rm_unknown_request pinStatusOptionName = (["unknown"], true)
  ∧ rmRemotePinCmd three_pins_env rm_unknown_request world_bac
    = (Ok tt, after world_bac [EvDelete client_a "r1"])
  ∧ deletions (w_trace (rmRemotePinCmd three_pins_env rm_unknown_request world_bac).2)
    = ["r1"].
Proof. by repeat split. Qed.

(** ** C8: the two channels of [ls] *)

Lemma emit_all_cases E n l w :
  ∃ evs, (emit_all E n l w).2 = after w evs
         ∧ ((emit_all E n l w).1 = Ok tt ∨ ∃ e, (emit_all E n l w).1 = Err e).
Proof.
  revert n w. induction l as [|v l IH]; intros n w.
  - exists []. rewrite after_nil. split; [done|by left].
  - simpl. run. destruct (res_Emit E n v) as [e|]; run.
    + exists [EvEmit v]. split; [done|]. right. by eexists.
    + destruct (IH (S n) (after w [EvEmit v])) as (evs & Hw & Hr).
      exists (EvEmit v :: evs). unfold after in Hw, Hr |- *. simpl in *.
      destruct (emit_all E (S n) l _) as [o w1]. simpl in *. subst w1.
      split; [by rewrite <-app_assoc|].
      destruct Hr as [->|[e ->]]; [by left|right; by eexists].
Qed.

(** C8.  [ls] reports success only after it has received the error
    signal, and the signal carried no error: the receive is the last
    thing a successful run did.  When the item stream was drained to
    its close (the service resolved, the filters were accepted and
    every item was emitted), the result of [ls] is the value of the
    error signal, also when the stream held no item. *)
Theorem list_reports_the_error_signal (E : Env) (req : Request) (w : World) :
  ((listRemotePinCmd E req w).1 = Ok tt →
     ∃ evs, w_trace (listRemotePinCmd E req w).2 = w_trace w ++ evs ++ [EvRecvErr None])
  ∧ ∀ c opts items errCh,
      getRemotePinServiceOrEnv E (option_string req pinServiceNameOptionName).1 w = (Ok c, w) →
      ls_options E req w = (Ok opts, w) →
      client_Ls E c opts = (items, errCh) →
      (∀ n v, res_Emit E n v = None) →
      listRemotePinCmd E req w
      = (match errCh with Some err => Err err | None => Ok tt end,
         after w (EvLs c opts :: (EvEmit <$> ((λ ps, EmitPin (output E ps)) <$> items))
                  ++ [EvRecvErr errCh])).
Proof.
  split.
  - unfold listRemotePinCmd. rewrite bind_run.
    destruct (getRemotePinServiceOrEnv_cases E
                (option_string req pinServiceNameOptionName).1 w) as [[c ->]|[e ->]];
      [|done].
    rewrite bind_run. unfold lsRemote. rewrite bind_run.
    destruct (ls_options_cases E req w) as [[opts ->]|[e ->]]; [|done].
    run. destruct (client_Ls E c opts) as [items errCh].
    match goal with |- context [emit_all E 0 ?l ?w0] =>
      destruct (emit_all_cases E 0 l w0) as (evs & Hw & Hr);
      destruct (emit_all E 0 l w0) as [o w1] end.
    simpl in Hw, Hr. subst w1. destruct Hr as [->|[e ->]]; [|done].
    destruct errCh as [err|]; simpl; [done|]. intros _.
    exists (EvLs c opts :: evs). by rewrite <-!app_assoc.
  - intros c opts items errCh Hc Hopts Hls Hemit.
    unfold listRemotePinCmd. rewrite (bind_Ok _ _ _ _ _ Hc).
    unfold lsRemote. rewrite !bind_run, Hopts. run. rewrite Hls.
    rewrite (emit_all_Ok _ _ _ _ Hemit).
    unfold after. simpl. destruct errCh; by rewrite <-!app_assoc.
Qed.

(** A listing that closes its item stream without an item and then
    signals an error. *)
Lemma list_reports_the_error_signal_witness :
  listRemotePinCmd (empty_listing_env (Some "unexpected end of listing"))
    (request_of_options [("service", VString "a")]) world_bac
  = (Err "unexpected end of listing",
     after world_bac [EvLs client_a []; EvRecvErr (Some "unexpected end of listing")]).
Proof.
  apply (proj2 (list_reports_the_error_signal
                  (empty_listing_env (Some "unexpected end of listing"))
                  (request_of_options [("service", VString "a")]) world_bac)
           client_a [] [] (Some "unexpected end of listing"));
    [reflexivity | reflexivity | reflexivity | intros n v; reflexivity].
Defined.

(** * Further properties of the commands *)

(** ** The service registry *)

Lemma service_add_then_resolve_witness :
  ∃ w', addRemotePinServiceCmd plain_env
          (service_add_request "pinata" "https://api.pinata.cloud/psa" "secret") world_bac
        = (Ok tt, w')
        ∧ getRemotePinService plain_env "pinata" w'
          = (Ok ("https://api.pinata.cloud/psa", "secret"), w').
Proof.
  apply (service_add_then_resolve plain_env
           (service_add_request "pinata" "https://api.pinata.cloud/psa" "secret")
           world_bac "/repo" "pinata" "https://api.pinata.cloud/psa" "secret");
    reflexivity.
Defined.

Lemma addRemotePinServiceCmd_Ok E req w root name url key :
  GetConfigRoot E = Success root →
  fsrepo_Open E root = None →
  repo_Config E = None →
  (∀ cfg, repo_SetConfig E cfg = None) →
  Options req !! pinServiceNameOptionName = Some (VString name) →
  Options req !! pinServiceURLOptionName = Some (VString url) →
  Options req !! pinServiceKeyOptionName = Some (VString key) →
  registered (w_config w) !! name = None →
  let cfg' := {| config.Services :=
                   Some (<[name := service name url key]> (registered (w_config w))) |} in
  addRemotePinServiceCmd E req w
  = (Ok tt, {| w_config := cfg'; w_trace := w_trace w ++ [EvSetConfig cfg'] |}).
Proof.
  intros Hroot Hopen Hcfg Hset Hname Hurl Hkey Hfree. simpl.
  unfold addRemotePinServiceCmd.
  rewrite (bind_Ok _ _ _ _ _ (open_repo_Ok _ _ _ Hroot Hopen)).
  unfold option_string. rewrite Hname, Hurl, Hkey. simpl.
  rewrite (bind_Ok _ _ _ _ _ (repo_Config_read_Ok _ _ Hcfg)).
  unfold registered in *.
  destruct (config.Services (w_config w)) as [m|] eqn:Hm; simpl in *.
  - destruct (decide (is_Some (m !! name))) as [[v Hv]|_]; [congruence|].
    erewrite bind_Ok; [|reflexivity]. by rewrite SetConfig_Ok.
  - erewrite bind_Ok; [|reflexivity]. by rewrite SetConfig_Ok.
Qed.

Lemma rmRemotePinServiceCmd_Ok E req w root name :
  GetConfigRoot E = Success root →
  fsrepo_Open E root = None →
  repo_Config E = None →
  (∀ cfg, repo_SetConfig E cfg = None) →
  Arguments req = [name] →
  let cfg' := {| config.Services := delete name <$> config.Services (w_config w) |} in
  rmRemotePinServiceCmd E req w
  = (Ok tt, {| w_config := cfg'; w_trace := w_trace w ++ [EvSetConfig cfg'] |}).
Proof.
  intros Hroot Hopen Hcfg Hset Hargs. simpl. unfold rmRemotePinServiceCmd.
  rewrite (bind_Ok _ _ _ _ _ (open_repo_Ok _ _ _ Hroot Hopen)). rewrite Hargs.
  rewrite (bind_Ok _ _ _ _ _ (repo_Config_read_Ok _ _ Hcfg)).
  by apply SetConfig_Ok.
Qed.

(** [service add] with a free name writes the configuration once: the
    registry with the new entry under the name, every other entry as
    it was.  A nil registry becomes one with that entry only. *)
Theorem service_add_inserts (E : Env) (req : Request) (w : World)
    (root name url key : string) :
  GetConfigRoot E = Success root →
  fsrepo_Open E root = None →
  repo_Config E = None →
  (∀ cfg, repo_SetConfig E cfg = None) →
  Options req !! pinServiceNameOptionName = Some (VString name) →
  Options req !! pinServiceURLOptionName = Some (VString url) →
  Options req !! pinServiceKeyOptionName = Some (VString key) →
  registered (w_config w) !! name = None →
  ∃ w', addRemotePinServiceCmd E req w = (Ok tt, w')
        ∧ config.Services (w_config w')
          = Some (<[name := service name url key]> (registered (w_config w)))
        ∧ w_trace w' = w_trace w ++ [EvSetConfig (w_config w')]
        ∧ ∀ other, other ≠ name →
            registered (w_config w') !! other = registered (w_config w) !! other.
Proof.
  intros Hroot Hopen Hcfg Hset Hname Hurl Hkey Hfree.
  eexists. split; [by eapply addRemotePinServiceCmd_Ok|]. simpl. repeat split.
  intros other Hne. unfold registered at 1. simpl. by rewrite lookup_insert_ne.
Qed.

Lemma service_add_inserts_witness :
  ∃ w', addRemotePinServiceCmd plain_env
          (service_add_request "pinata" "https://api.pinata.cloud/psa" "secret") world_bac
        = (Ok tt, w')
        ∧ config.Services (w_config w')
          = Some (<["pinata" := service "pinata" "https://api.pinata.cloud/psa" "secret"]>
                    (registered (w_config world_bac)))
        ∧ w_trace w' = w_trace world_bac ++ [EvSetConfig (w_config w')]
        ∧ ∀ other, other ≠ "pinata" →
            registered (w_config w') !! other = registered (w_config world_bac) !! other.
Proof.
  apply (service_add_inserts plain_env
           (service_add_request "pinata" "https://api.pinata.cloud/psa" "secret")
           world_bac "/repo" "pinata" "https://api.pinata.cloud/psa" "secret");
    reflexivity.
Defined.

(** [service add] with a name that is registered returns "service
    already present": nothing is written, and the entry stays. *)
Theorem service_add_existing_refused (E : Env) (req : Request) (w : World)
    (root name url key : string) (svc : config.RemotePinService) :
  GetConfigRoot E = Success root →
  fsrepo_Open E root = None →
  repo_Config E = None →
  Options req !! pinServiceNameOptionName = Some (VString name) →
  Options req !! pinServiceURLOptionName = Some (VString url) →
  Options req !! pinServiceKeyOptionName = Some (VString key) →
  registered (w_config w) !! name = Some svc →
  addRemotePinServiceCmd E req w = (Err "service already present", w).
Proof.
  intros Hroot Hopen Hcfg Hname Hurl Hkey Hsvc.
  unfold addRemotePinServiceCmd.
  rewrite (bind_Ok _ _ _ _ _ (open_repo_Ok _ _ _ Hroot Hopen)).
  unfold option_string. rewrite Hname, Hurl, Hkey. simpl.
  rewrite (bind_Ok _ _ _ _ _ (repo_Config_read_Ok _ _ Hcfg)).
  unfold registered in Hsvc.
  destruct (config.Services (w_config w)) as [m|]; simpl in Hsvc; [|done].
  destruct (decide (is_Some (m !! name))) as [_|Hnone]; [done|].
  destruct Hnone. by eexists.
Qed.

Lemma service_add_existing_refused_witness :
  addRemotePinServiceCmd plain_env (service_add_request "a" "https://other.example" "k2")
    world_bac
  = (Err "service already present", world_bac).
Proof.
  apply (service_add_existing_refused plain_env
           (service_add_request "a" "https://other.example" "k2") world_bac
           "/repo" "a" "https://other.example" "k2"
           (service "a" "https://a.example" "ka"));
    reflexivity.
Defined.

(** [service rm] with one argument writes the configuration whether
    the name is registered or not: the registry without the name,
    every other entry as it was.  The name then does not resolve, and
    a second [service rm] of it succeeds and writes the same
    configuration again. *)
Theorem service_rm_removes (E : Env) (req : Request) (w : World) (root name : string) :
  GetConfigRoot E = Success root →
  fsrepo_Open E root = None →
  repo_Config E = None →
  (∀ cfg, repo_SetConfig E cfg = None) →
  Arguments req = [name] →
  ∃ w', rmRemotePinServiceCmd E req w = (Ok tt, w')
        ∧ registered (w_config w') = delete name (registered (w_config w))
        ∧ w_trace w' = w_trace w ++ [EvSetConfig (w_config w')]
        ∧ getRemotePinService E name w' = (Err "service not known", w')
        ∧ rmRemotePinServiceCmd E req w' = (Ok tt, after w' [EvSetConfig (w_config w')]).
Proof.
  intros Hroot Hopen Hcfg Hset Hargs.
  pose proof (λ w0, rmRemotePinServiceCmd_Ok E req w0 root name
                      Hroot Hopen Hcfg Hset Hargs) as Hrm. simpl in Hrm.
  eexists. split; [apply Hrm|]. simpl.
  split; [|split; [done|split]].
  - unfold registered. simpl.
    destruct (config.Services (w_config w)) as [m|]; simpl; [done|].
    by rewrite delete_empty.
  - unfold getRemotePinService.
    rewrite (bind_Ok _ _ _ _ _ (open_repo_Ok _ _ _ Hroot Hopen)).
    rewrite (bind_Ok _ _ _ _ _ (repo_Config_read_Ok _ _ Hcfg)). simpl.
    destruct (config.Services (w_config w)) as [m|]; simpl; [|done].
    by rewrite lookup_delete_eq.
  - rewrite Hrm. unfold after. simpl.
    destruct (config.Services (w_config w)) as [m|]; simpl; [|done].
    by rewrite delete_delete_eq.
Qed.

Lemma service_rm_removes_witness :
  ∃ w', rmRemotePinServiceCmd plain_env (request_of_arguments ["b"]) world_bac = (Ok tt, w')
        ∧ registered (w_config w') = delete "b" (registered (w_config world_bac))
        ∧ w_trace w' = w_trace world_bac ++ [EvSetConfig (w_config w')]
        ∧ getRemotePinService plain_env "b" w' = (Err "service not known", w')
        ∧ rmRemotePinServiceCmd plain_env (request_of_arguments ["b"]) w'
          = (Ok tt, after w' [EvSetConfig (w_config w')]).
Proof.
  apply (service_rm_removes plain_env (request_of_arguments ["b"]) world_bac "/repo" "b");
    reflexivity.
Defined.

(** Adding a service under a free name and removing it again leaves
    the registry with the entries it had. *)
Theorem service_add_rm_restores (E : Env) (reqA reqR : Request) (w : World)
    (root name url key : string) :
  GetConfigRoot E = Success root →
  fsrepo_Open E root = None →
  repo_Config E = None →
  (∀ cfg, repo_SetConfig E cfg = None) →
  Options reqA !! pinServiceNameOptionName = Some (VString name) →
  Options reqA !! pinServiceURLOptionName = Some (VString url) →
  Options reqA !! pinServiceKeyOptionName = Some (VString key) →
  Arguments reqR = [name] →
  registered (w_config w) !! name = None →
  ∃ w1 w2, addRemotePinServiceCmd E reqA w = (Ok tt, w1)
           ∧ rmRemotePinServiceCmd E reqR w1 = (Ok tt, w2)
           ∧ registered (w_config w2) = registered (w_config w).
Proof.
  intros Hroot Hopen Hcfg Hset Hname Hurl Hkey Hargs Hfree.
  eexists _, _. split; [by eapply addRemotePinServiceCmd_Ok|].
  split; [by eapply rmRemotePinServiceCmd_Ok|].
  unfold registered at 1. simpl. by rewrite delete_insert_id.
Qed.

Lemma service_add_rm_restores_witness :
  ∃ w1 w2, addRemotePinServiceCmd plain_env
             (service_add_request "pinata" "https://api.pinata.cloud/psa" "secret") world_bac
           = (Ok tt, w1)
           ∧ rmRemotePinServiceCmd plain_env (request_of_arguments ["pinata"]) w1 = (Ok tt, w2)
           ∧ registered (w_config w2) = registered (w_config world_bac).
Proof.
  apply (service_add_rm_restores plain_env
           (service_add_request "pinata" "https://api.pinata.cloud/psa" "secret")
           (request_of_arguments ["pinata"]) world_bac
           "/repo" "pinata" "https://api.pinata.cloud/psa" "secret");
    reflexivity.
Defined.

(** [service rm] wants exactly one argument: with none, or with more,
    it returns an error and writes nothing. *)
Theorem service_rm_wants_one_argument (E : Env) (req : Request) (w : World) :
  length (Arguments req) ≠ 1 → ∃ e, rmRemotePinServiceCmd E req w = (Err e, w).
Proof.
  intros Hlen. unfold rmRemotePinServiceCmd, open_repo. run.
  destruct (GetConfigRoot E) as [root|]; run; [|by eexists].
  destruct (fsrepo_Open E root); run; [by eexists|].
  destruct (Arguments req) as [|? [|??]]; simpl in Hlen; [by eexists|lia|by eexists].
Qed.

Lemma service_rm_wants_one_argument_witness :
  ∃ e, rmRemotePinServiceCmd plain_env (request_of_arguments ["a"; "b"]) world_bac
       = (Err e, world_bac).
Proof.
  apply (service_rm_wants_one_argument plain_env (request_of_arguments ["a"; "b"]) world_bac).
  simpl. lia.
Defined.

(** ** Services that are not configured *)

(** Without a service name (the option absent, not a string, or
    empty) [ls] and [rm] return "remote pinning service name not
    specified" at once: the repository is not opened and the remote
    service is not called.  [add] returns an error too and submits
    nothing. *)
Theorem unnamed_service_stops_commands (E : Env) (fuel : nat) (req : Request) (w : World) :
  (option_string req pinServiceNameOptionName).1 = "" →
  listRemotePinCmd E req w = (Err "remote pinning service name not specified", w)
  ∧ rmRemotePinCmd E req w = (Err "remote pinning service name not specified", w)
  ∧ ∃ e, addRemotePinCmd E fuel req w = (Err e, w).
Proof.
  intros Hname. unfold listRemotePinCmd, rmRemotePinCmd, addRemotePinCmd.
  rewrite Hname. repeat split.
  run. destruct (GetApi E); [by eexists|].
  destruct (Arguments req) as [|arg [|??]]; [by eexists| |by eexists].
  run. destruct (ResolvePath E arg); by eexists.
Qed.

Lemma unnamed_service_stops_commands_witness :
  listRemotePinCmd plain_env (request_of_arguments []) world_bac
  = (Err "remote pinning service name not specified", world_bac)
  ∧ rmRemotePinCmd plain_env (request_of_arguments []) world_bac
    = (Err "remote pinning service name not specified", world_bac)
  ∧ ∃ e, addRemotePinCmd plain_env 1 (request_of_arguments []) world_bac
         = (Err e, world_bac).
Proof.
  apply (unnamed_service_stops_commands plain_env 1 (request_of_arguments []) world_bac).
  reflexivity.
Defined.

(** With the name of a service that is not registered, [ls] and [rm]
    return "service not known" and call nothing; [add] returns an
    error and submits nothing. *)
Theorem unknown_service_stops_commands (E : Env) (fuel : nat) (req : Request) (w : World)
    (root name : string) :
  GetConfigRoot E = Success root →
  fsrepo_Open E root = None →
  repo_Config E = None →
  (option_string req pinServiceNameOptionName).1 = name →
  name ≠ "" →
  registered (w_config w) !! name = None →
  listRemotePinCmd E req w = (Err "service not known", w)
  ∧ rmRemotePinCmd E req w = (Err "service not known", w)
  ∧ ∃ e, addRemotePinCmd E fuel req w = (Err e, w).
Proof.
  intros Hroot Hopen Hcfg Hname Hne Hnone.
  assert (Hc : getRemotePinServiceOrEnv E name w = (Err "service not known", w)).
  { unfold getRemotePinServiceOrEnv, getRemotePinService.
    rewrite decide_False by done. rewrite bind_run, bind_run.
    rewrite (open_repo_Ok _ _ _ Hroot Hopen), bind_run.
    rewrite (repo_Config_read_Ok _ _ Hcfg). unfold registered in Hnone.
    destruct (config.Services (w_config w)) as [m|]; simpl in *; [|done].
    by rewrite Hnone. }
  unfold listRemotePinCmd, rmRemotePinCmd, addRemotePinCmd. rewrite Hname.
  rewrite !(bind_Err _ _ _ _ _ Hc). repeat split.
  rewrite bind_run. destruct (GetApi E); simpl; [by eexists|].
  destruct (Arguments req) as [|arg [|??]]; [by eexists| |by eexists].
  rewrite bind_run. destruct (ResolvePath E arg); simpl; [|by eexists].
  rewrite (bind_Err _ _ _ _ _ Hc). by eexists.
Qed.

Lemma unknown_service_stops_commands_witness :
  listRemotePinCmd plain_env (request_of_options [("service", VString "zz")]) world_bac
  = (Err "service not known", world_bac)
  ∧ rmRemotePinCmd plain_env (request_of_options [("service", VString "zz")]) world_bac
    = (Err "service not known", world_bac)
  ∧ ∃ e, addRemotePinCmd plain_env 1 (request_of_options [("service", VString "zz")])
           world_bac = (Err e, world_bac).
Proof.
  apply (unknown_service_stops_commands plain_env 1
           (request_of_options [("service", VString "zz")]) world_bac "/repo" "zz");
    try reflexivity.
  discriminate.
Defined.

(** ** [rm] *)

Lemma delete_all_Ok E c n ids w :
  (∀ k id, client_DeleteByID E k c id = None) →
  delete_all E c n ids w = (Ok tt, after w (EvDelete c <$> ids)).
Proof.
  intros Hdel. revert n w. induction ids as [|id ids IH]; intros n w; simpl.
  - run. by rewrite after_nil.
  - run. rewrite Hdel.
    change {| w_config := w_config w; w_trace := w_trace w ++ [EvDelete c id] |}
      with (after w [EvDelete c id]).
    by rewrite IH, after_after.
Qed.

(** The deletions stop at the first one that fails. *)
Lemma delete_all_first_failure E c n pre id post err w :
  (∀ i id', pre !! i = Some id' → client_DeleteByID E (n + i) c id' = None) →
  client_DeleteByID E (n + length pre) c id = Some err →
  delete_all E c n (pre ++ id :: post) w
  = (Err ("removing pin with request ID " +:+ id +:+ " (" +:+ err +:+ ")"),
     after w (EvDelete c <$> (pre ++ [id]))).
Proof.
  revert n w. induction pre as [|p pre IH]; intros n w Hpre Hid; simpl.
  - run. rewrite Nat.add_0_r in Hid. by rewrite Hid.
  - run. specialize (Hpre 0 p eq_refl) as Hp. rewrite Nat.add_0_r in Hp. rewrite Hp.
    change {| w_config := w_config w; w_trace := w_trace w ++ [EvDelete c p] |}
      with (after w [EvDelete c p]).
    rewrite IH, after_after; [done| |].
    + intros i id' Hi. replace (S n + i) with (n + S i) by lia. by apply Hpre.
    + by replace (S n + length pre) with (n + S (length pre)) by lia.
Qed.

(** Given one explicit request id, [rm] attempts exactly one deletion,
    that of the id, whatever the force flag and the filters of the
    request are, and without listing anything; it returns success, or
    the error of the deletion together with the id. *)
Theorem rm_one_explicit_id (E : Env) (req : Request) (w : World)
    (c : pinclient.Client) (id : string) :
  Arguments req = [id] →
  getRemotePinServiceOrEnv E (option_string req pinServiceNameOptionName).1 w = (Ok c, w) →
  rmRemotePinCmd E req w
  = (match client_DeleteByID E 0 c id with
     | Some err => Err ("removing pin with request ID " +:+ id +:+ " (" +:+ err +:+ ")")
     | None => Ok tt
     end, after w [EvDelete c id]).
Proof.
  intros Hargs Hc. unfold rmRemotePinCmd.
  rewrite (bind_Ok _ _ _ _ _ Hc). rewrite Hargs.
  erewrite bind_Ok; [|reflexivity]. simpl. run.
  by destruct (client_DeleteByID E 0 c id).
Qed.

Lemma rm_one_explicit_id_witness :
  rmRemotePinCmd failing_delete_env
    {| Arguments := ["r2"];
       Options := list_to_map [("service", VString "a"); ("status", VStrings ["bogus"])] |}
    world_bac
  = (Err "removing pin with request ID r2 (pin not found)",
     after world_bac [EvDelete client_a "r2"]).
Proof.
  apply (rm_one_explicit_id failing_delete_env
           {| Arguments := ["r2"];
              Options := list_to_map [("service", VString "a");
                                      ("status", VStrings ["bogus"])] |}
           world_bac client_a "r2");
    reflexivity.
Defined.

(** Without explicit ids and with the force flag set, [rm] lists the
    pins of the filters, receives the error signal, and then deletes
    every listed pin, in the order of the listing; nothing else is
    deleted. *)
Theorem rm_forced_deletes_the_listing (E : Env) (req : Request) (w : World)
    (c : pinclient.Client) (opts : list pinclient.LsOption)
    (pins : list pinclient.PinStatusGetter) :
  Arguments req = [] →
  Options req !! pinForceOptionName = Some (VBool true) →
  getRemotePinServiceOrEnv E (option_string req pinServiceNameOptionName).1 w = (Ok c, w) →
  ls_options E req w = (Ok opts, w) →
  client_Ls E c opts = (pins, None) →
  (∀ k id, client_DeleteByID E k c id = None) →
  rmRemotePinCmd E req w
  = (Ok tt, after w (EvLs c opts :: EvRecvErr None
                     :: (EvDelete c <$> (pinclient.GetRequestId <$> pins)))).
Proof.
  intros Hargs Hforce Hc Hopts Hls Hdel. unfold rmRemotePinCmd.
  rewrite (bind_Ok _ _ _ _ _ Hc). rewrite Hargs. unfold lsRemote, option_bool.
  rewrite Hforce. rewrite !bind_run, Hopts. run. rewrite Hls. run.
  case_bool_decide; run.
  - match goal with |- delete_all E c 0 ?ids ?w0 = _ =>
      rewrite (delete_all_Ok E c 0 ids w0 Hdel) end.
    unfold after. simpl. by rewrite <-!app_assoc.
  - destruct pins; simpl in *; [|lia]. unfold after. simpl. by rewrite <-!app_assoc.
Qed.

Lemma rm_forced_deletes_the_listing_witness :
  rmRemotePinCmd three_pins_env forced_rm_request world_bac
  = (Ok tt, after world_bac [EvLs client_a []; EvRecvErr None;
                             EvDelete client_a "r1"; EvDelete client_a "r2";
                             EvDelete client_a "r3"]).
Proof.
  apply (rm_forced_deletes_the_listing three_pins_env forced_rm_request world_bac
           client_a [] three_pins);
    reflexivity.
Defined.

(** When a deletion fails, [rm] stops there: it returns the error with
    the id of the pin, and attempts none of the deletions that were
    still to come. *)
Theorem rm_stops_at_failed_deletion (E : Env) (req : Request) (w : World)
    (c : pinclient.Client) (opts : list pinclient.LsOption)
    (pins : list pinclient.PinStatusGetter) (pre post : list string) (id : string)
    (err : error) :
  Arguments req = [] →
  Options req !! pinForceOptionName = Some (VBool true) →
  getRemotePinServiceOrEnv E (option_string req pinServiceNameOptionName).1 w = (Ok c, w) →
  ls_options E req w = (Ok opts, w) →
  client_Ls E c opts = (pins, None) →
  pinclient.GetRequestId <$> pins = pre ++ id :: post →
  (∀ i id', pre !! i = Some id' → client_DeleteByID E i c id' = None) →
  client_DeleteByID E (length pre) c id = Some err →
  rmRemotePinCmd E req w
  = (Err ("removing pin with request ID " +:+ id +:+ " (" +:+ err +:+ ")"),
     after w (EvLs c opts :: EvRecvErr None :: (EvDelete c <$> (pre ++ [id])))).
Proof.
  intros Hargs Hforce Hc Hopts Hls Hids Hpre Hid. unfold rmRemotePinCmd.
  rewrite (bind_Ok _ _ _ _ _ Hc). rewrite Hargs. unfold lsRemote, option_bool.
  rewrite Hforce. rewrite !bind_run, Hopts. run. rewrite Hls. run.
  rewrite Hids. rewrite bool_decide_true by (rewrite length_app; simpl; lia). run.
  match goal with |- delete_all E c 0 _ ?w0 = _ =>
    rewrite (delete_all_first_failure E c 0 pre id post err w0) by done end.
  unfold after. simpl. by rewrite <-!app_assoc.
Qed.

Lemma rm_stops_at_failed_deletion_witness :
  rmRemotePinCmd failing_delete_env forced_rm_request world_bac
  = (Err "removing pin with request ID r2 (pin not found)",
     after world_bac [EvLs client_a []; EvRecvErr None;
                      EvDelete client_a "r1"; EvDelete client_a "r2"]).
Proof.
  apply (rm_stops_at_failed_deletion failing_delete_env forced_rm_request world_bac
           client_a [] three_pins ["r1"] ["r3"] "r2" "pin not found");
    try reflexivity.
  intros [|i] id' Hi; [by injection Hi as <-|done].
Defined.

(** When the listing ends with an error, [rm] returns "listing remote
    pin IDs (...)" and deletes nothing, whatever was listed before the
    error and whether or not the force flag is set. *)
Theorem rm_listing_error_deletes_nothing (E : Env) (req : Request) (w : World)
    (c : pinclient.Client) (opts : list pinclient.LsOption)
    (pins : list pinclient.PinStatusGetter) (err : error) :
  Arguments req = [] →
  getRemotePinServiceOrEnv E (option_string req pinServiceNameOptionName).1 w = (Ok c, w) →
  ls_options E req w = (Ok opts, w) →
  client_Ls E c opts = (pins, Some err) →
  rmRemotePinCmd E req w
  = (Err ("listing remote pin IDs (" +:+ err +:+ ")"),
     after w [EvLs c opts; EvRecvErr (Some err)]).
Proof.
  intros Hargs Hc Hopts Hls. unfold rmRemotePinCmd.
  rewrite (bind_Ok _ _ _ _ _ Hc). rewrite Hargs. unfold lsRemote.
  rewrite !bind_run, Hopts. run. rewrite Hls. run.
  unfold after. simpl. by rewrite <-!app_assoc.
Qed.

Lemma rm_listing_error_deletes_nothing_witness :
  rmRemotePinCmd (sample_env [] (λ _, pinclient.StatusPinned) three_pins (Some "timeout"))
    forced_rm_request world_bac
  = (Err "listing remote pin IDs (timeout)",
     after world_bac [EvLs client_a []; EvRecvErr (Some "timeout")]).
Proof.
  apply (rm_listing_error_deletes_nothing
           (sample_env [] (λ _, pinclient.StatusPinned) three_pins (Some "timeout"))
           forced_rm_request world_bac client_a [] three_pins "timeout");
    reflexivity.
Defined.

(** ** [add] *)

(** [add] wants exactly one argument: with none, or with more, it
    returns "expecting one CID argument" before it resolves a path,
    looks up the service or submits anything. *)
Theorem add_wants_one_argument (E : Env) (fuel : nat) (req : Request) (w : World) :
  GetApi E = None →
  length (Arguments req) ≠ 1 →
  addRemotePinCmd E fuel req w = (Err "expecting one CID argument", w).
Proof.
  intros Hapi Hlen. unfold addRemotePinCmd. rewrite Hapi. run.
  destruct (Arguments req) as [|? [|??]]; simpl in Hlen; [done|lia|done].
Qed.

Lemma add_wants_one_argument_witness :
  addRemotePinCmd plain_env 1
    {| Arguments := ["/ipfs/QmA"; "/ipfs/QmB"];
       Options := list_to_map [("service", VString "a"); ("background", VBool true)] |}
    world_bac
  = (Err "expecting one CID argument", world_bac).
Proof.
  apply (add_wants_one_argument plain_env 1
           {| Arguments := ["/ipfs/QmA"; "/ipfs/QmB"];
              Options := list_to_map [("service", VString "a");
                                      ("background", VBool true)] |} world_bac).
  - reflexivity.
  - simpl. lia.
Defined.

(** In the background (the default), [add] does not wait: it submits
    the pin for the resolved CID, with the name when one is given,
    tries each delegate once, polls nothing, and emits the status the
    submission returned, whatever that status is.  The result is the
    one of the emission. *)
Theorem background_add_emits_submission (E : Env) (fuel : nat) (req : Request) (w : World)
    (arg : string) (rp : cid.Cid) (c : pinclient.Client) (ps : pinclient.PinStatusGetter) :
  GetApi E = None →
  Arguments req = [arg] →
  ResolvePath E arg = Success rp →
  getRemotePinServiceOrEnv E (option_string req pinServiceNameOptionName).1 w = (Ok c, w) →
  client_Add E c rp (name_option req) = Success ps →
  Forall (converts E) (pinclient.GetDelegates ps) →
  Options req !! pinBackgroundOptionName = Some (VBool true) →
  addRemotePinCmd E fuel req w
  = (match res_Emit E 0 (EmitPin (output E ps)) with
     | Some err => Err err
     | None => Ok tt
     end,
     after w (EvAdd c rp (name_option req)
              :: delegate_calls E (pinclient.GetDelegates ps)
              ++ [EvEmit (EmitPin (output E ps))]))
  ∧ polls (delegate_calls E (pinclient.GetDelegates ps)) = [].
Proof.
  intros Hapi Hargs Hrp Hc Hadd Hds Hbg. split.
  - unfold addRemotePinCmd. rewrite Hapi, Hargs, Hrp.
    erewrite bind_Ok; [|reflexivity]. erewrite bind_Ok; [|reflexivity].
    rewrite (bind_Ok _ _ _ _ _ Hc). fold (name_option req).
    rewrite bind_run, record_after. rewrite Hadd.
    erewrite bind_Ok; [|reflexivity].
    rewrite (bind_Ok _ _ _ _ _ (connect_delegates_Ok _ _ _ Hds)).
    unfold wait_and_emit, option_bool. rewrite Hbg.
    erewrite bind_Ok; [|reflexivity]. simpl. run.
    destruct (res_Emit E 0 _); unfold after; simpl; by rewrite <-!app_assoc.
  - clear. induction (pinclient.GetDelegates ps) as [|d ds IH]; simpl; [done|].
    destruct (AddrInfoFromP2pAddr E d) as [p|]; [|done]. simpl.
    destruct (Swarm_Connect E p); simpl; exact IH.
Qed.

Lemma background_add_emits_submission_witness :
  addRemotePinCmd (progress_env pinclient.StatusPinned) 0 (add_request true) world_bac
  = (Ok tt,
     after world_bac
       [EvAdd client_a "/ipfs/QmSample" [];
        EvConnect "/p2p/QmDelegate"; EvLog "/p2p/QmDelegate" "dial backoff";
        EvEmit (EmitPin {| RequestID := "req-1"; Name := "";
                           Delegates := ["/p2p/QmDelegate"];
                           Status := "queued"; Cid := "QmSample" |})]).
Proof.
  apply (background_add_emits_submission (progress_env pinclient.StatusPinned) 0
           (add_request true) world_bac "/ipfs/QmSample" "/ipfs/QmSample" client_a
           (sample_pin "req-1" pinclient.StatusQueued ["/p2p/QmDelegate"]));
    try reflexivity.
  repeat constructor. by exists "/p2p/QmDelegate".
Defined.

(** ** The wait loop *)

(** While the service reports statuses to wait on and the context is
    not done, the loop goes round: after [k] such rounds it is at poll
    [k]+1 with the request id it started with. *)
Lemma poll_advance E c (script : nat → pinclient.PinStatusGetter) k :
  ∀ fuel n ps w,
  (∀ i, i < k →
        client_GetStatusByID E (n + i) c (pinclient.GetRequestId ps) = Success (script i)
        ∧ pinclient.GetRequestId (script i) = pinclient.GetRequestId ps
        ∧ waiting (pinclient.GetStatus (script i))
        ∧ ctx_Done E (n + i) = false) →
  ∃ ps', pinclient.GetRequestId ps' = pinclient.GetRequestId ps
         ∧ poll E c (k + fuel) n ps w
           = poll E c fuel (n + k) ps'
               (after w (wait_rounds c (pinclient.GetRequestId ps) k)).
Proof.
  induction k as [|k IH] in script |- *; intros fuel n ps w Hround.
  - exists ps. unfold wait_rounds. simpl. by rewrite Nat.add_0_r, after_nil.
  - destruct (Hround 0) as (H0 & Hid & [Hnp Hnf] & Hctx); [lia|].
    rewrite Nat.add_0_r in H0, Hctx.
    destruct (IH (λ i, script (S i)) fuel (S n) (script 0)
                 (after w [EvGetStatus c (pinclient.GetRequestId ps); EvWait]))
      as (ps' & Hid' & Hpoll).
    { intros i Hi. rewrite Hid. replace (S n + i) with (n + S i) by lia.
      apply Hround. lia. }
    exists ps'. split; [congruence|].
    replace (n + S k) with (S n + k) by lia.
    rewrite Hid, after_after in Hpoll.
    transitivity (poll E c (k + fuel) (S n) (script 0)
                    (after w [EvGetStatus c (pinclient.GetRequestId ps); EvWait]));
      [|exact Hpoll].
    simpl. run. rewrite H0. run.
    rewrite decide_False, decide_False by done. run. rewrite Hctx.
    unfold after. by rewrite <-app_assoc.
Qed.

Lemma wait_rounds_snoc c requestId k :
  wait_rounds c requestId (S k)
  = wait_rounds c requestId k ++ [EvGetStatus c requestId; EvWait].
Proof.
  unfold wait_rounds. induction k as [|k IH]; [done|].
  change (concat (replicate (S (S k)) [EvGetStatus c requestId; EvWait]))
    with ([EvGetStatus c requestId; EvWait]
          ++ concat (replicate (S k) [EvGetStatus c requestId; EvWait])).
  rewrite IH at 1. reflexivity.
Qed.

(** The wait of a synchronous [add] has no bound of its own: as long
    as the service reports statuses other than pinned and failed, and
    the context is not done, it keeps polling; it emits nothing. *)
Theorem sync_add_waits_without_bound (E : Env) (c : pinclient.Client) (req : Request)
    (ps : pinclient.PinStatusGetter) (script : nat → pinclient.PinStatusGetter) :
  Options req !! pinBackgroundOptionName = Some (VBool false) →
  (∀ i, client_GetStatusByID E i c (pinclient.GetRequestId ps) = Success (script i)
        ∧ pinclient.GetRequestId (script i) = pinclient.GetRequestId ps
        ∧ waiting (pinclient.GetStatus (script i))
        ∧ ctx_Done E i = false) →
  ∀ fuel w,
    wait_and_emit E c fuel req ps w
    = (OutOfFuel, after w (wait_rounds c (pinclient.GetRequestId ps) fuel)).
Proof.
  intros Hsync Hround fuel w. unfold wait_and_emit, option_bool. rewrite Hsync.
  erewrite bind_Ok; [|reflexivity]. simpl.
  destruct (poll_advance E c script fuel 0 0 ps w) as (ps' & _ & Hpoll).
  { intros i _. apply Hround. }
  rewrite Nat.add_0_r in Hpoll. by rewrite bind_run, Hpoll.
Qed.

Lemma sync_add_waits_without_bound_witness :
  wait_and_emit stuck_env client_a 7 (add_request false)
    (sample_pin "req-1" pinclient.StatusQueued ["/p2p/QmDelegate"]) world_bac
  = (OutOfFuel, after world_bac (wait_rounds client_a "req-1" 7)).
Proof.
  apply (sync_add_waits_without_bound stuck_env client_a (add_request false)
           (sample_pin "req-1" pinclient.StatusQueued ["/p2p/QmDelegate"])
           (λ _, sample_pin "req-1" pinclient.StatusPinning ["/p2p/QmDelegate"])).
  - reflexivity.
  - intros i. by repeat split.
Defined.

(** A synchronous [add] gives the wait up in two more cases, neither
    of which emits a record: when a status poll fails it returns
    "failed to query pin (...)" with the error of the poll, and when
    the context is done during the wait after a poll it returns
    "waiting for pin interrupted" and polls no more. *)
Theorem sync_add_interrupted_or_query_failed (E : Env) (c : pinclient.Client)
    (fuel : nat) (req : Request) (ps : pinclient.PinStatusGetter) (w : World)
    (script : nat → pinclient.PinStatusGetter) (k : nat) :
  Options req !! pinBackgroundOptionName = Some (VBool false) →
  k < fuel →
  (∀ i, i < k →
        client_GetStatusByID E i c (pinclient.GetRequestId ps) = Success (script i)
        ∧ pinclient.GetRequestId (script i) = pinclient.GetRequestId ps
        ∧ waiting (pinclient.GetStatus (script i))
        ∧ ctx_Done E i = false) →
  (∀ err, client_GetStatusByID E k c (pinclient.GetRequestId ps) = Failure err →
     wait_and_emit E c fuel req ps w
     = (Err ("failed to query pin (" +:+ err +:+ ")"),
        after w (poll_rounds c (pinclient.GetRequestId ps) k)))
  ∧ (client_GetStatusByID E k c (pinclient.GetRequestId ps) = Success (script k) →
     waiting (pinclient.GetStatus (script k)) →
     ctx_Done E k = true →
     wait_and_emit E c fuel req ps w
     = (Err "waiting for pin interrupted",
        after w (wait_rounds c (pinclient.GetRequestId ps) (S k)))).
Proof.
  intros Hsync Hfuel Hround. unfold wait_and_emit, option_bool. rewrite Hsync.
  erewrite bind_Ok; [|reflexivity]. simpl.
  destruct (poll_advance E c script k (fuel - k) 0 ps w) as (ps' & Hid & Hpoll).
  { intros i Hi. by apply Hround. }
  replace (k + (fuel - k)) with fuel in Hpoll by lia. simpl in Hpoll.
  rewrite bind_run, Hpoll.
  destruct (fuel - k) as [|fuel'] eqn:Hf; [lia|]. simpl. rewrite Hid.
  assert (Hrounds : ∀ evs, after (after w (wait_rounds c (pinclient.GetRequestId ps) k)) evs
                     = after w (wait_rounds c (pinclient.GetRequestId ps) k ++ evs)).
  { intros evs. apply after_after. }
  split.
  - intros err Herr. run. rewrite Herr. run.
    change {| w_config := w_config w;
              w_trace := (w_trace w ++ wait_rounds c (pinclient.GetRequestId ps) k)
                         ++ [EvGetStatus c (pinclient.GetRequestId ps)] |}
      with (after (after w (wait_rounds c (pinclient.GetRequestId ps) k))
              [EvGetStatus c (pinclient.GetRequestId ps)]).
    by rewrite Hrounds.
  - intros Hk [Hnp Hnf] Hctx. run. rewrite Hk. run.
    rewrite decide_False, decide_False by done. run. rewrite Hctx.
    rewrite wait_rounds_snoc. unfold after. simpl. by rewrite <-!app_assoc.
Qed.

Lemma sync_add_interrupted_or_query_failed_witness :
  wait_and_emit (with_ctx_and_polls stuck_env 9 2) client_a 5 (add_request false)
    (sample_pin "req-1" pinclient.StatusQueued ["/p2p/QmDelegate"]) world_bac
  = (Err "failed to query pin (connection refused)",
     after world_bac (poll_rounds client_a "req-1" 2))
  ∧ wait_and_emit (with_ctx_and_polls stuck_env 2 9) client_a 5 (add_request false)
      (sample_pin "req-1" pinclient.StatusQueued ["/p2p/QmDelegate"]) world_bac
    = (Err "waiting for pin interrupted", after world_bac (wait_rounds client_a "req-1" 3)).
Proof.
  split.
  - destruct (sync_add_interrupted_or_query_failed (with_ctx_and_polls stuck_env 9 2)
                client_a 5 (add_request false)
                (sample_pin "req-1" pinclient.StatusQueued ["/p2p/QmDelegate"]) world_bac
                (λ _, sample_pin "req-1" pinclient.StatusPinning ["/p2p/QmDelegate"]) 2
                eq_refl) as [Hfail _].
    + lia.
    + intros i Hi. destruct i as [|[|i]]; [| |lia]; by repeat split.
    + exact (Hfail "connection refused" eq_refl).
  - destruct (sync_add_interrupted_or_query_failed (with_ctx_and_polls stuck_env 2 9)
                client_a 5 (add_request false)
                (sample_pin "req-1" pinclient.StatusQueued ["/p2p/QmDelegate"]) world_bac
                (λ _, sample_pin "req-1" pinclient.StatusPinning ["/p2p/QmDelegate"]) 2
                eq_refl) as [_ Hdone].
    + lia.
    + intros i Hi. destruct i as [|[|i]]; [| |lia]; by repeat split.
    + apply Hdone; [reflexivity|by split|reflexivity].
Defined.

(** ** What the pin commands leave alone *)

Lemma writes_app tr1 tr2 : writes (tr1 ++ tr2) = writes tr1 ++ writes tr2.
Proof. unfold writes. apply omap_app. Qed.

Lemma reads_only_bind {A B} (m : M A) (k : A → M B) :
  reads_only m → (∀ a, reads_only (k a)) → reads_only (m ≫= k).
Proof.
  intros Hm Hk w. rewrite bind_run. destruct (Hm w) as [Hc0 Hw0].
  destruct (m w) as [[a| | |] w']; simpl in *; try done.
  destruct (Hk a w') as [Hc Hw]. split; congruence.
Qed.

Lemma reads_only_pure {A} (o : Outcome A) : reads_only (λ w, (o, w)).
Proof. by intros w. Qed.

Lemma reads_only_record ev : writes [ev] = [] → reads_only (record ev).
Proof.
  intros Hev w. split; [done|]. simpl. rewrite writes_app, Hev. apply app_nil_r.
Qed.

Lemma reads_only_try {A} (r : result A) : reads_only (try r).
Proof. destruct r; apply reads_only_pure. Qed.

Lemma reads_only_check r : reads_only (check r).
Proof. destruct r; apply reads_only_pure. Qed.

Lemma reads_only_getRemotePinServiceOrEnv E name :
  reads_only (getRemotePinServiceOrEnv E name).
Proof. intros w. by rewrite getRemotePinServiceOrEnv_world. Qed.

Lemma reads_only_emit_all E n l : reads_only (emit_all E n l).
Proof.
  revert n. induction l as [|v l IH]; intros n; simpl; [apply reads_only_pure|].
  apply reads_only_bind; [by apply reads_only_record|]. intros _.
  apply reads_only_bind; [apply reads_only_check|]. intros _. apply IH.
Qed.

Lemma reads_only_connect_delegates E ds : reads_only (connect_delegates E ds).
Proof.
  induction ds as [|d ds IH]; simpl; [apply reads_only_pure|].
  apply reads_only_bind; [apply reads_only_try|]. intros p.
  apply reads_only_bind; [by apply reads_only_record|]. intros _.
  apply reads_only_bind; [|intros _; apply IH].
  destruct (Swarm_Connect E p); [by apply reads_only_record|apply reads_only_pure].
Qed.

Lemma reads_only_poll E c fuel n ps : reads_only (poll E c fuel n ps).
Proof.
  revert n ps. induction fuel as [|fuel IH]; intros n ps; simpl; [apply reads_only_pure|].
  apply reads_only_bind; [by apply reads_only_record|]. intros _.
  destruct (client_GetStatusByID E n c _) as [ps'|]; [|apply reads_only_pure].
  simpl. destruct (decide _); [apply reads_only_pure|].
  destruct (decide _); [apply reads_only_pure|].
  apply reads_only_bind; [by apply reads_only_record|]. intros _.
  destruct (ctx_Done E n); [apply reads_only_pure|apply IH].
Qed.

Lemma reads_only_delete_all E c n ids : reads_only (delete_all E c n ids).
Proof.
  revert n. induction ids as [|id ids IH]; intros n; simpl; [apply reads_only_pure|].
  apply reads_only_bind; [by apply reads_only_record|]. intros _.
  destruct (client_DeleteByID E n c id); [apply reads_only_pure|apply IH].
Qed.

Lemma reads_only_lsRemote E req c : reads_only (lsRemote E req c).
Proof.
  unfold lsRemote. apply reads_only_bind.
  - intros w. destruct (ls_options_cases E req w) as [[opts ->]|[e ->]]; by split.
  - intros opts. apply reads_only_bind; [by apply reads_only_record|].
    intros _. apply reads_only_pure.
Qed.

Lemma reads_only_option_bool req k : reads_only (option_bool req k).
Proof.
  unfold option_bool. destruct (Options req !! k) as [[| |]|]; apply reads_only_pure.
Qed.

(** The pin commands and [service ls] never write the configuration:
    whatever they return, what is persisted after them is what was
    persisted before, and they ask the repository for no write.  Only
    [service add] and [service rm] do. *)
Theorem pin_commands_write_no_config (E : Env) (fuel : nat) (req : Request) :
  reads_only (addRemotePinCmd E fuel req)
  ∧ reads_only (listRemotePinCmd E req)
  ∧ reads_only (rmRemotePinCmd E req)
  ∧ reads_only (lsRemotePinServiceCmd E req).
Proof.
  split; [|split; [|split]].
  - unfold addRemotePinCmd.
    apply reads_only_bind; [apply reads_only_check|]. intros _.
    destruct (Arguments req) as [|arg [|??]]; try apply reads_only_pure.
    apply reads_only_bind; [apply reads_only_try|]. intros rp.
    apply reads_only_bind; [apply reads_only_getRemotePinServiceOrEnv|]. intros c.
    apply reads_only_bind; [by apply reads_only_record|]. intros _.
    apply reads_only_bind; [apply reads_only_try|]. intros ps.
    apply reads_only_bind; [apply reads_only_connect_delegates|]. intros _.
    unfold wait_and_emit.
    apply reads_only_bind; [apply reads_only_option_bool|]. intros background.
    apply reads_only_bind; [|intros ps'; apply reads_only_emit_all].
    destruct background; simpl; [apply reads_only_pure|apply reads_only_poll].
  - unfold listRemotePinCmd.
    apply reads_only_bind; [apply reads_only_getRemotePinServiceOrEnv|]. intros c.
    apply reads_only_bind; [apply reads_only_lsRemote|]. intros [psCh errCh].
    apply reads_only_bind; [apply reads_only_emit_all|]. intros _.
    apply reads_only_bind; [by apply reads_only_record|]. intros _.
    apply reads_only_check.
  - unfold rmRemotePinCmd.
    apply reads_only_bind; [apply reads_only_getRemotePinServiceOrEnv|]. intros c.
    apply reads_only_bind; [|intros ids; apply reads_only_delete_all].
    destruct (Arguments req) as [|arg0 rest]; [|apply reads_only_pure].
    apply reads_only_bind; [apply reads_only_lsRemote|]. intros [psCh errCh].
    apply reads_only_bind; [by apply reads_only_record|]. intros _.
    destruct errCh; [apply reads_only_pure|].
    case_bool_decide; [|apply reads_only_pure].
    apply reads_only_bind; [apply reads_only_option_bool|]. intros force.
    destruct force; apply reads_only_pure.
  - unfold lsRemotePinServiceCmd, open_repo, repo_Config_read.
    apply reads_only_bind.
    { apply reads_only_bind; [apply reads_only_try|]. intros root.
      apply reads_only_check. }
    intros _. apply reads_only_bind.
    { apply reads_only_bind; [apply reads_only_check|]. intros _. by intros w. }
    intros cfg. destruct (config.Services cfg); [|apply reads_only_pure].
    apply reads_only_emit_all.
Qed.

(** ** [ls] *)

Lemma parse_statuses_named E l w :
  StatusUnknown E ∉ pinclient.named →
  Forall (λ s, s ∈ pinclient.named) l →
  parse_statuses E l w = (Ok l, w).
Proof.
  intros Hunk Hl. induction Hl as [|s l Hs _ IH]; simpl; [done|].
  rewrite decide_False by (by apply named_accepted). by rewrite bind_run, IH.
Qed.

Lemma decode_cids_Forall2 E l w :
  Forall (decodes E) l →
  ∃ cs, decode_cids E l w = (Ok cs, w)
        ∧ Forall2 (λ raw parsed, cid_Decode E raw = Success parsed) l cs.
Proof.
  induction 1 as [|raw l [parsed Hraw] _ (cs & IH & Hall)]; simpl.
  - exists []. by split.
  - exists (parsed :: cs). rewrite Hraw, bind_run, IH. split; [done|]. by constructor.
Qed.

(** Filters that are in order reach the client as they were given:
    when every CID of the request parses and every status is one of
    queued, pinning, pinned and failed, [lsRemote] makes one list
    call, with the name filter, the CIDs as parsed and the statuses
    unchanged, each in the order given and only if it was supplied. *)
Theorem valid_filters_reach_the_client (E : Env) (req : Request)
    (c : pinclient.Client) (w : World) :
  StatusUnknown E ∉ pinclient.named →
  (∀ cidsRaw, option_strings req pinCIDsOptionName = (cidsRaw, true) →
              Forall (decodes E) cidsRaw) →
  (∀ statusRaw, option_strings req pinStatusOptionName = (statusRaw, true) →
                Forall (λ s, s ∈ pinclient.named) statusRaw) →
  ∃ opts cid_part,
    lsRemote E req c w = (Ok (client_Ls E c opts), after w [EvLs c opts])
    ∧ opts = name_filter req ++ cid_part ++ status_part req
    ∧ match option_strings req pinCIDsOptionName with
      | (cidsRaw, true) =>
          ∃ cs, cid_part = [pinclient.FilterCIDs cs]
                ∧ Forall2 (λ raw parsed, cid_Decode E raw = Success parsed) cidsRaw cs
      | _ => cid_part = []
      end.
Proof.
  intros Hunk Hcids Hstatuses.
  assert (∃ cid_part,
            cid_filter E req (name_filter req) w = (Ok (name_filter req ++ cid_part), w)
            ∧ match option_strings req pinCIDsOptionName with
              | (cidsRaw, true) =>
                  ∃ cs, cid_part = [pinclient.FilterCIDs cs]
                        ∧ Forall2 (λ raw parsed, cid_Decode E raw = Success parsed) cidsRaw cs
              | _ => cid_part = []
              end) as (cid_part & Hcid & Hpart).
  { unfold cid_filter.
    destruct (option_strings req pinCIDsOptionName) as [cidsRaw [|]].
    - destruct (decode_cids_Forall2 E cidsRaw w (Hcids _ eq_refl)) as (cs & Hcs & Hall).
      exists [pinclient.FilterCIDs cs]. rewrite bind_run, Hcs. split; [done|]. by exists cs.
    - exists []. by rewrite app_nil_r. }
  exists (name_filter req ++ cid_part ++ status_part req), cid_part.
  split; [|by split].
  unfold lsRemote, ls_options. rewrite !bind_run, Hcid.
  unfold status_filter, status_part.
  destruct (option_strings req pinStatusOptionName) as [statusRaw [|]] eqn:Hs.
  - rewrite bind_run, (parse_statuses_named E statusRaw w Hunk (Hstatuses _ eq_refl)).
    run. by rewrite <-app_assoc.
  - run. by rewrite !app_nil_r.
Qed.

Lemma valid_filters_reach_the_client_witness :
  ∃ opts cid_part,
    lsRemote three_pins_env
      (request_of_options [("name", VString "backup"); ("cid", VStrings ["QmA"; "QmB"]);
                           ("status", VStrings ["pinned"; "queued"])])
      client_a world_bac
    = (Ok (client_Ls three_pins_env client_a opts), after world_bac [EvLs client_a opts])
    ∧ opts = [pinclient.FilterName "backup"] ++ cid_part
             ++ [pinclient.FilterStatus ["pinned"; "queued"]]
    ∧ ∃ cs, cid_part = [pinclient.FilterCIDs cs]
            ∧ Forall2 (λ raw parsed, cid_Decode three_pins_env raw = Success parsed)
                ["QmA"; "QmB"] cs.
Proof.
  apply (valid_filters_reach_the_client three_pins_env
           (request_of_options [("name", VString "backup"); ("cid", VStrings ["QmA"; "QmB"]);
                                ("status", VStrings ["pinned"; "queued"])])
           client_a world_bac).
  - apply (bool_decide_unpack _). by vm_compute.
  - intros cidsRaw [= <-]. repeat constructor; by eexists.
  - intros statusRaw [= <-]. repeat constructor; apply (bool_decide_unpack _); by vm_compute.
Defined.

Lemma emit_all_first_failure E n pre v post err w :
  (∀ i v', pre !! i = Some v' → res_Emit E (n + i) v' = None) →
  res_Emit E (n + length pre) v = Some err →
  emit_all E n (pre ++ v :: post) w = (Err err, after w (EvEmit <$> (pre ++ [v]))).
Proof.
  revert n w. induction pre as [|p pre IH]; intros n w Hpre Hv; simpl.
  - run. rewrite Nat.add_0_r in Hv. by rewrite Hv.
  - run. specialize (Hpre 0 p eq_refl) as Hp. rewrite Nat.add_0_r in Hp. rewrite Hp.
    change {| w_config := w_config w; w_trace := w_trace w ++ [EvEmit p] |}
      with (after w [EvEmit p]).
    rewrite IH, after_after; [done| |].
    + intros i v' Hi. replace (S n + i) with (n + S i) by lia. by apply Hpre.
    + by replace (S n + length pre) with (n + S (length pre)) by lia.
Qed.

(** [ls] relays the pins in the order they arrive, one record each.
    When the emitter refuses a record, [ls] stops: it returns the
    error of the emitter, relays none of the pins that follow, and
    does not receive the error signal of the listing, so that an
    error the listing ended with goes unreported. *)
Theorem list_stops_when_emit_fails (E : Env) (req : Request) (w : World)
    (c : pinclient.Client) (opts : list pinclient.LsOption)
    (pre post : list pinclient.PinStatusGetter) (ps : pinclient.PinStatusGetter)
    (errCh : option error) (err : error) :
  getRemotePinServiceOrEnv E (option_string req pinServiceNameOptionName).1 w = (Ok c, w) →
  ls_options E req w = (Ok opts, w) →
  client_Ls E c opts = (pre ++ ps :: post, errCh) →
  (∀ i ps', pre !! i = Some ps' → res_Emit E i (listed E ps') = None) →
  res_Emit E (length pre) (listed E ps) = Some err →
  listRemotePinCmd E req w
  = (Err err, after w (EvLs c opts :: (EvEmit <$> (listed E <$> (pre ++ [ps]))))).
Proof.
  intros Hc Hopts Hls Hpre Hps. unfold listRemotePinCmd.
  rewrite (bind_Ok _ _ _ _ _ Hc). unfold lsRemote.
  rewrite !bind_run, Hopts. run. rewrite Hls.
  change (λ ps0, EmitPin (output E ps0)) with (listed E).
  rewrite fmap_app. simpl.
  match goal with |- context [emit_all E 0 (?l1 ++ ?v :: ?l2) ?w0] =>
    rewrite (emit_all_first_failure E 0 l1 v l2 err w0) end.
  - unfold after. simpl. rewrite !fmap_app. simpl. by rewrite <-!app_assoc.
  - intros i v' Hi. apply list_lookup_fmap_Some in Hi as (ps' & -> & Hi).
    by apply Hpre.
  - by rewrite length_fmap.
Qed.

Lemma list_stops_when_emit_fails_witness :
  listRemotePinCmd broken_emitter_env (request_of_options [("service", VString "a")])
    world_bac
  = (Err "broken pipe",
     after world_bac
       (EvLs client_a []
        :: (EvEmit <$> (listed broken_emitter_env
                          <$> [sample_pin "r1" pinclient.StatusPinned [];
                               sample_pin "r2" pinclient.StatusQueued []])))).
Proof.
  apply (list_stops_when_emit_fails broken_emitter_env
           (request_of_options [("service", VString "a")]) world_bac client_a []
           [sample_pin "r1" pinclient.StatusPinned []]
           [sample_pin "r3" pinclient.StatusFailed []]
           (sample_pin "r2" pinclient.StatusQueued []) (Some "timeout") "broken pipe");
    try reflexivity.
  intros [|i] ps' Hi; [reflexivity|done].
Defined.

(** ** The sort interface of the service list *)

(** [Less] is a strict total order of the names: nothing is less than
    itself, [Less] is transitive, and of two services with different
    names exactly one is less than the other.  It compares bytes:
    ["B"] is less than ["a"]. *)
Theorem Less_strict_total_order (a b c : PinServiceAndURL) :
  Less a a = false
  ∧ (Less a b = true → Less b c = true → Less a c = true)
  ∧ (Less a b = true → Less b a = false)
  ∧ (Service a ≠ Service b → Less a b = true ∨ Less b a = true)
  ∧ Less {| Service := "B"; URL := "" |} {| Service := "a"; URL := "" |} = true.
Proof.
  unfold Less. split; [apply string_ltb_irrefl|].
  split; [apply string_ltb_trans|]. split; [|split; [|done]].
  - intros Hab. destruct (String.ltb (Service b) (Service a)) eqn:Hba; [|done].
    pose proof (string_ltb_trans _ _ _ Hab Hba) as H.
    by rewrite string_ltb_irrefl in H.
  - intros Hne. destruct (String.ltb (Service a) (Service b)) eqn:Hab; [by left|].
    right. apply string_ltb_le. split; [by apply string_ltb_false_le|]. congruence.
Qed.

Lemma insert_head_Permutation {A} (t : list A) j b x :
  t !! j = Some b → b :: <[j := x]> t ≡ₚ x :: t.
Proof.
  revert j. induction t as [|y t IH]; intros [|j] Hj; simplify_eq/=.
  - apply Permutation_swap.
  - etrans; [apply Permutation_swap|].
    etrans; [apply Permutation_skip, (IH j Hj)|]. apply Permutation_swap.
Qed.

Lemma swap_Permutation {A} (s : list A) i j a b :
  s !! i = Some a → s !! j = Some b → <[j := a]> (<[i := b]> s) ≡ₚ s.
Proof.
  revert i j. induction s as [|x s IH]; intros [|i] [|j] Hi Hj; simplify_eq/=.
  - done.
  - by apply insert_head_Permutation.
  - by apply insert_head_Permutation.
  - by rewrite (IH i j).
Qed.

Lemma at_index_Some {A} (s : list A) (i : Z) :
  (0 ≤ i < Z.of_nat (length s))%Z → ∃ a, at_index s i = Some a ∧ s !! Z.to_nat i = Some a.
Proof.
  intros Hi. unfold at_index. rewrite decide_True by lia.
  destruct (lookup_lt_is_Some_2 s (Z.to_nat i)) as [a Ha]; [lia|]. by exists a.
Qed.

(** [Swap] with two indices in range exchanges the two elements and
    leaves the others: the slice keeps its length and its elements, so
    that what [sort.Sort] makes of it is a permutation of the services
    that were put in.  Swapping again gives the slice back. *)
Theorem Swap_exchanges (s : list PinServiceAndURL) (i j : Z) :
  (0 ≤ i < Len s)%Z →
  (0 ≤ j < Len s)%Z →
  ∃ s', Swap s i j = Some s'
        ∧ Len s' = Len s
        ∧ at_index s' i = at_index s j
        ∧ at_index s' j = at_index s i
        ∧ (∀ k, k ≠ i → k ≠ j → at_index s' k = at_index s k)
        ∧ s' ≡ₚ s
        ∧ Swap s' i j = Some s.
Proof.
  unfold Len. intros Hi Hj.
  destruct (at_index_Some s i Hi) as (a & Hai & Ha).
  destruct (at_index_Some s j Hj) as (b & Hbj & Hb).
  assert (Hli : Z.to_nat i < length s) by lia.
  assert (Hlj : Z.to_nat j < length s) by lia.
  exists (<[Z.to_nat j := a]> (<[Z.to_nat i := b]> s)).
  assert (Hi' : (<[Z.to_nat j := a]> (<[Z.to_nat i := b]> s)) !! Z.to_nat i = Some b).
  { destruct (decide (Z.to_nat j = Z.to_nat i)) as [Heq|Hne].
    - rewrite Heq, list_lookup_insert_eq by (by rewrite length_insert).
      congruence.
    - rewrite list_lookup_insert_ne by done. by rewrite list_lookup_insert_eq. }
  assert (Hj' : (<[Z.to_nat j := a]> (<[Z.to_nat i := b]> s)) !! Z.to_nat j = Some a).
  { by rewrite list_lookup_insert_eq by (by rewrite length_insert). }
  split; [unfold Swap; by rewrite Hai, Hbj|].
  split; [by rewrite !length_insert|].
  split; [unfold at_index; rewrite !decide_True by lia; by rewrite Hi', Hb|].
  split; [unfold at_index; rewrite !decide_True by lia; by rewrite Hj', Ha|].
  split.
  { intros k Hki Hkj. unfold at_index. destruct (decide (0 ≤ k)%Z); [|done].
    rewrite !list_lookup_insert_ne by lia. done. }
  split; [by apply swap_Permutation|].
  unfold Swap, at_index. rewrite !decide_True by lia. rewrite Hi', Hj'. simpl.
  f_equal. apply list_eq. intros k.
  destruct (decide (k = Z.to_nat j)) as [->|Hkj].
  - rewrite list_lookup_insert_eq by (by rewrite !length_insert). done.
  - rewrite list_lookup_insert_ne by done.
    destruct (decide (k = Z.to_nat i)) as [->|Hki].
    + rewrite list_lookup_insert_eq by (by rewrite !length_insert). done.
    + by rewrite !list_lookup_insert_ne by done.
Qed.

Lemma Swap_exchanges_witness :
  ∃ s', Swap (listing (config.URL <$> registered (w_config world_bac))) 0 2 = Some s'
        ∧ Len s' = 3%Z
        ∧ (Service <$> s') = ["c"; "b"; "a"].
Proof.
  destruct (Swap_exchanges (listing (config.URL <$> registered (w_config world_bac))) 0 2)
    as (s' & Hswap & Hlen & _); [by vm_compute | by vm_compute |].
  exists s'. split; [exact Hswap|]. split; [exact Hlen|].
  vm_compute in Hswap. injection Hswap as <-. reflexivity.
Defined.

(** [Less] on indices compares the names of the two elements; [Swap]
    and [Less] panic on an index outside the slice, a negative one
    included. *)
Theorem sort_methods_out_of_range (s : list PinServiceAndURL) (i j : Z) :
  ¬ (0 ≤ i < Len s)%Z ∨ ¬ (0 ≤ j < Len s)%Z →
  Swap s i j = None ∧ Less_at s i j = None.
Proof.
  unfold Len, Swap, Less_at, at_index. intros Hout.
  destruct (decide (0 ≤ i)%Z) as [Hi|]; [|done].
  destruct (s !! Z.to_nat i) as [a|] eqn:Ha; [|done]. simpl.
  destruct (decide (0 ≤ j)%Z) as [Hj|]; [|done].
  destruct (s !! Z.to_nat j) as [b|] eqn:Hb; [|done].
  apply lookup_lt_Some in Ha, Hb. lia.
Qed.

Lemma sort_methods_out_of_range_witness :
  Swap (listing (config.URL <$> registered (w_config world_bac))) 0 3 = None
  ∧ Less_at (listing (config.URL <$> registered (w_config world_bac))) 0 3 = None.
Proof.
  apply (sort_methods_out_of_range
           (listing (config.URL <$> registered (w_config world_bac))) 0 3).
  right. vm_compute. intros [_ H]. discriminate H.
Defined.
